(** * pygmm: the [Model] base class and its parameter checks

    A shallow embedding of [pygmm/model.py]: the parameter specifications
    ([NumericParameter], [CategoricalParameter]) with their [check] methods,
    the construction of a [Model] from keyword arguments, and the response
    accessors (scalar quantities, spectral accelerations and the log-log
    interpolation built on [numpy.interp]).

    Conventions.
    - A Python value that the code handles is a [pyval]: [None], a number or
      a string. Finite Python numbers (ints and floats) compare exactly, as
      rationals do, so a number is a [Q] and [<] is the order of [Q]; what
      separates an int from a float, the range of a float, is kept where the
      code depends on it ([formats_g]).
    - The arrays [_ln_resp], [_ln_std] and [PERIODS] hold floats on which the
      code calls [np.exp] and [np.log]; they are modelled over the real
      numbers (rounding is left out).
    - A call either returns or raises: [result]. Calls to [logging.warning]
      and [logging.error] are recorded, in order, as a list of [LogRecord]s
      returned next to the result. *)

From Stdlib Require Import QArith Qabs Reals Lra Lia Sorted.
From stdpp Require Import gmap strings list fin_maps.

(** ** Python values, exceptions and log records *)

Inductive pyval :=
| PyNone
| PyNum (x : Q)
| PyStr (s : string).

Inductive exn :=
| ValueError (args : list string)
| TypeError
| IndexError
| OverflowError.

Inductive result (A : Type) :=
| Ok (a : A)
| Raise (e : exn).

Arguments Ok {A} a.
Arguments Raise {A} e.

Definition bind {A B} (r : result A) (k : A -> result B) : result B :=
  match r with
  | Ok a => k a
  | Raise e => Raise e
  end.

Notation "x <-- r ;; k" := (bind r (fun x => k))
  (at level 100, r at next level, right associativity).

Inductive level := WARNING | ERROR.

(** What a log line says. The text the source formats is determined by these
    fields: the parameter name, the value and the limit (both printed with
    [{:g}]), or the value and the options joined by [", "]. *)
Inductive message :=
| LessThanLimit (name : string) (value : pyval) (limit : Q)
| GreaterThanLimit (name : string) (value : pyval) (limit : Q)
| NotAnOption (name : string) (value : pyval) (options : list pyval).

Record LogRecord := { levelno : level; msg : message }.

Definition is_None (v : pyval) : bool :=
  match v with PyNone => true | _ => false end.

(** Python's [==] on the values above: numbers by value, strings by
    content, [None] only to itself. *)
Definition py_eqb (a b : pyval) : bool :=
  match a, b with
  | PyNone, PyNone => true
  | PyNum x, PyNum y => Qeq_bool x y
  | PyStr s, PyStr t => String.eqb s t
  | _, _ => false
  end.

(** [a < b] for a number [b]: a string or [None] on the left is a
    [TypeError] (Python 3). *)
Definition py_lt_num (a : pyval) (b : Q) : result bool :=
  match a with
  | PyNum x => Ok (QMicromega.Qlt_bool x b)
  | _ => Raise TypeError
  end.

Definition py_num_lt (a : Q) (b : pyval) : result bool :=
  match b with
  | PyNum x => Ok (QMicromega.Qlt_bool a x)
  | _ => Raise TypeError
  end.

(** [value in options]. *)
Definition py_in (value : pyval) (options : list pyval) : bool :=
  existsb (py_eqb value) options.

(** ** Parameters *)

(** The attributes of the base class [Parameter]. *)
Record BaseParameter := {
  _name : string;
  _required : bool;
  _default : pyval
}.

Record NumericParameter := {
  num_base :> BaseParameter;
  _min : option Q;
  _max : option Q
}.

Record CategoricalParameter := {
  cat_base :> BaseParameter;
  _options : list pyval
}.

(** [NumericParameter.__init__(name, required, min, max, default)]. *)
Definition NumericParameter_init (name : string) (required : bool)
    (min max : option Q) (default : pyval) : NumericParameter :=
  {| num_base := {| _name := name; _required := required; _default := default |};
     _min := min; _max := max |}.

(** [CategoricalParameter.__init__(name, required, options, default)];
    [options or []] turns a missing or empty argument into the empty list. *)
Definition CategoricalParameter_init (name : string) (required : bool)
    (options : option (list pyval)) (default : pyval) : CategoricalParameter :=
  {| cat_base := {| _name := name; _required := required; _default := default |};
     _options := match options with
                 | Some (o :: os) => o :: os
                 | _ => []
                 end |}.

(** The interface of [Parameter]: a [check] that logs and returns or raises. *)
Class Checkable (P : Type) := {
  base : P -> BaseParameter;
  check : P -> pyval -> list LogRecord * result pyval
}.

Definition required_error (name : string) : exn :=
  ValueError [name; "is a required parameter"%string].

Definition warning (m : message) : LogRecord := {| levelno := WARNING; msg := m |}.

(** The format code [{:g}] converts its argument to a float. A float is
    printed as it is. An int is first rounded to the nearest float (ties to
    even), which fails with an [OverflowError] from [2^1024 - 2^970] on;
    every finite float is below that bound, so the bound decides for any
    number. A string does not accept the code, [None] accepts no format
    code at all. *)
Definition float_bound : Q := inject_Z (2 ^ 1024 - 2 ^ 970).

Definition formats_g (x : Q) : bool := QMicromega.Qlt_bool (Qabs x) float_bound.

Definition format_g (v : pyval) : result unit :=
  match v with
  | PyNum x => if formats_g x then Ok tt else Raise OverflowError
  | PyStr _ => Raise (ValueError ["Unknown format code 'g' for object of type 'str'"%string])
  | PyNone => Raise TypeError
  end.

(** [logging.warning(text.format(self.name, value, limit))]: the text is
    formatted first, so a value or a limit that does not format raises and
    nothing is logged. *)
Definition warn_limit (m : message) (value : pyval) (limit : Q)
  : list LogRecord * result pyval :=
  match (_ <-- format_g value ;; format_g (PyNum limit)) with
  | Ok _ => ([warning m], Ok value)
  | Raise e => ([], Raise e)
  end.

Definition NumericParameter_check (self : NumericParameter) (value : pyval)
  : list LogRecord * result pyval :=
  if is_None value && _required self then ([], Raise (required_error (_name self)))
  else if is_None value then ([], Ok (_default self))
  else
    let upper :=
      match _max self with
      | Some hi =>
          match py_num_lt hi value with
          | Raise e => ([], Raise e)
          | Ok true => warn_limit (GreaterThanLimit (_name self) value hi) value hi
          | Ok false => ([], Ok value)
          end
      | None => ([], Ok value)
      end in
    match _min self with
    | Some lo =>
        match py_lt_num value lo with
        | Raise e => ([], Raise e)
        | Ok true => warn_limit (LessThanLimit (_name self) value lo) value lo
        | Ok false => upper
        end
    | None => upper
    end.

Definition CategoricalParameter_check (self : CategoricalParameter) (value : pyval)
  : list LogRecord * result pyval :=
  if is_None value && _required self then ([], Raise (required_error (_name self)))
  else if is_None value then ([], Ok (_default self))
  else if negb (py_in value (_options self)) then
    let alert := if _required self then ERROR else WARNING in
    ([{| levelno := alert; msg := NotAnOption (_name self) value (_options self) |}],
     Ok value)
  else ([], Ok value).

#[export] Instance NumericParameter_Checkable : Checkable NumericParameter :=
  {| base := num_base; check := NumericParameter_check |}.

#[export] Instance CategoricalParameter_Checkable : Checkable CategoricalParameter :=
  {| base := cat_base; check := CategoricalParameter_check |}.

(** A number lies below the lower bound of a parameter, or above its upper
    bound; a bound that is [None] is never violated. *)
Definition below_min (self : NumericParameter) (x : Q) : Prop :=
  exists lo, _min self = Some lo /\ (x < lo)%Q.
Definition above_max (self : NumericParameter) (x : Q) : Prop :=
  exists hi, _max self = Some hi /\ (hi < x)%Q.
Definition out_of_range (self : NumericParameter) (x : Q) : Prop :=
  below_min self x \/ above_max self x.

(** The bounds of a parameter, where set, are numbers that [{:g}] formats. *)
Definition bounds_format (self : NumericParameter) : Prop :=
  forall b, _min self = Some b \/ _max self = Some b -> formats_g b = true.

(** An entry of [PARAMS]. *)
Inductive param :=
| Numeric (p : NumericParameter)
| Categorical (p : CategoricalParameter).

Definition param_base (p : param) : BaseParameter :=
  match p with
  | Numeric q => base q
  | Categorical q => base q
  end.

Definition param_check (p : param) (value : pyval) : list LogRecord * result pyval :=
  match p with
  | Numeric q => check q value
  | Categorical q => check q value
  end.

(** ** Model construction *)

(** The element type of a numpy array that is used as an index. *)
Inductive dtype := int64 | float64.

(** The class attributes a concrete model declares. [INDICES_PSA] is a
    numpy array: its entries and its element type. *)
Record ModelClass := {
  PARAMS : list param;
  PERIODS : list R;
  INDICES_PSA : list Z;
  INDICES_PSA_dtype : dtype;
  INDEX_PGA : option Z;
  INDEX_PGV : option Z;
  INDEX_PGD : option Z;
  PGV_SCALE : R;
  PGD_SCALE : R
}.

(** An instance: its class, the [params] dictionary and the two arrays,
    which are [None] until the subclass computes them. *)
Record Model := {
  cls : ModelClass;
  params : gmap string pyval;
  _ln_resp : option (list R);
  _ln_std : option (list R)
}.

(** [d.get(k, None)]. *)
Definition dict_get (d : gmap string pyval) (k : string) : pyval :=
  default PyNone (d !! k).

Definition param_name (p : param) : string := _name (param_base p).

(** [{p.name: kwds.get(p.name, None) for p in PARAMS}]: entries are written
    in order, a later one with the same key replaces the earlier one. *)
Definition select_params (PARAMS : list param) (kwds : gmap string pyval)
  : gmap string pyval :=
  foldl (fun d p => <[param_name p := dict_get kwds (param_name p)]> d) ∅ PARAMS.

(** The loop of [_check_inputs] over the parameters still to visit; the
    first [check] that raises ends it, and what was logged before stays
    logged. *)
Fixpoint _check_inputs (ps : list param) (params : gmap string pyval)
  : list LogRecord * result (gmap string pyval) :=
  match ps with
  | [] => ([], Ok params)
  | p :: ps' =>
      match param_check p (dict_get params (param_name p)) with
      | (log, Raise e) => (log, Raise e)
      | (log, Ok v) =>
          let '(log', r) := _check_inputs ps' (<[param_name p := v]> params) in
          (log ++ log', r)
      end
  end.

(** [Model.__init__] for an instance of class [c], called with the keyword
    arguments [kwds]. *)
Definition Model_init (c : ModelClass) (kwds : gmap string pyval)
  : list LogRecord * result Model :=
  match _check_inputs (PARAMS c) (select_params (PARAMS c) kwds) with
  | (log, Raise e) => (log, Raise e)
  | (log, Ok d) =>
      (log, Ok {| cls := c; params := d; _ln_resp := None; _ln_std := None |})
  end.

(** The names a class declares, and the keyword arguments that fit the
    declaration: a numeric parameter is given nothing, or a number that
    [{:g}] formats as its bounds do. *)
Definition declared_names (c : ModelClass) : list string :=
  map param_name (PARAMS c).


(** A parameter is absent from a dictionary: its name is missing or holds
    [None]. *)
Definition absent (d : gmap string pyval) (p : param) : Prop :=
  dict_get d (param_name p) = PyNone.


(** A class with a required magnitude, an optional depth and an optional
    fault mechanism, used to exercise the construction. *)
Definition example_params : list param :=
  [ Numeric (NumericParameter_init "mag" true (Some 3%Q) (Some 8.5%Q) PyNone);
    Numeric (NumericParameter_init "depth_hyp" false (Some 0%Q) (Some 20%Q) (PyNum 7));
    Categorical (CategoricalParameter_init "mechanism" false
                   (Some [PyStr "SS"; PyStr "NM"; PyStr "RS"]) (PyStr "SS")) ].

Definition example_class : ModelClass :=
  {| PARAMS := example_params;
     PERIODS := [0.1; 1; 2]%R;
     INDICES_PSA := [0; 1; 2]%Z; INDICES_PSA_dtype := int64;
     INDEX_PGA := None;
     INDEX_PGV := Some 3%Z;
     INDEX_PGD := None;
     PGV_SCALE := 2%R;
     PGD_SCALE := 1%R |}.

(** ** Arrays *)

(** [a[i]] for an integer [i]: a negative index counts from the end, an
    index outside the array is an [IndexError]. *)
Definition getitem {A} (a : list A) (i : Z) : result A :=
  let n := Z.of_nat (length a) in
  let j := if (i <? 0)%Z then (i + n)%Z else i in
  if ((0 <=? j)%Z && (j <? n)%Z)%bool then
    match a !! Z.to_nat j with
    | Some x => Ok x
    | None => Raise IndexError
    end
  else Raise IndexError.

(** [a[indices]] for an array of integers: the selected elements, in the
    order of [indices]. *)
Fixpoint take_indices {A} (a : list A) (indices : list Z) : result (list A) :=
  match indices with
  | [] => Ok []
  | i :: rest =>
      x <-- getitem a i ;;
      xs <-- take_indices a rest ;;
      Ok (x :: xs)
  end.

(** [a[indices]] for a numpy array [indices] with element type [dt]: numpy
    accepts an array of integers as an index and refuses an array of floats,
    whatever it holds, with an [IndexError]. *)
Definition fancy_index {A} (a : list A) (dt : dtype) (indices : list Z)
  : result (list A) :=
  match dt with
  | int64 => take_indices a indices
  | float64 => Raise IndexError
  end.

(** Subscripting an attribute that may still be [None]. *)
Definition subscript {A B} (o : option (list A)) (f : list A -> result B) : result B :=
  match o with
  | Some a => f a
  | None => Raise TypeError
  end.

(** ** numpy.interp

    Modelled from the documentation and the C routine of numpy
    ([arr_interp] and [binary_search_with_guess], with the default [left]
    and [right] and no [period]). The sample points must not be empty and
    [xp], [fp] have the same length. For each query the routine looks for
    the index [j] of the interval that holds it: -1 below the first sample
    point, the length above the last one; with at most 4 sample points by a
    scan from index 1 ([linear_search]), with more by trying the
    neighbours of a guess, the index found for the previous query, and then
    bisecting. It returns [fp[j]] at a sample point and the value of the
    chord elsewhere. Queries are real numbers here, so the branch for a
    query that is not a number is left out. *)

Fixpoint scan (key : R) (arr : list R) : nat :=
  match arr with
  | [] => O
  | a :: rest => if Rle_dec a key then S (scan key rest) else O
  end.

Definition linear_search (key : R) (arr : list R) : nat := scan key (tl arr).

(** The piecewise linear interpolant of the sample points at [x], with the
    interval found by the scan. *)
Definition interp_at (xp fp : list R) (x : R) : R :=
  let lval := nth O fp 0%R in
  let rval := nth (length fp - 1) fp 0%R in
  if Rlt_dec (nth (length xp - 1) xp 0%R) x then rval
  else if Rlt_dec x (nth O xp 0%R) then lval
  else
    let j := linear_search x xp in
    if Nat.eqb j (length xp - 1) then nth j fp 0%R
    else if Req_dec_T (nth j xp 0%R) x then nth j fp 0%R
    else
      let slope :=
        ((nth (S j) fp 0 - nth j fp 0) / (nth (S j) xp 0 - nth j xp 0))%R in
      (slope * (x - nth j xp 0) + nth j fp 0)%R.

(** [arr[i]] in the C routine. *)
Definition item (arr : list R) (i : Z) : R := nth (Z.to_nat i) arr 0%R.

Definition LIKELY_IN_CACHE_SIZE : Z := 8.

(** The loop [while (imin < imax)] of the bisection. Each turn shrinks
    [imax - imin], so [imax - imin] turns are enough. *)
Fixpoint bisect (fuel : nat) (key : R) (arr : list R) (imin imax : Z) : Z :=
  match fuel with
  | O => (imin - 1)%Z
  | S fuel' =>
      if (imin <? imax)%Z then
        let imid := (imin + Z.shiftr (imax - imin) 1)%Z in
        if Rle_dec (item arr imid) key then bisect fuel' key arr (imid + 1)%Z imax
        else bisect fuel' key arr imin imid
      else (imin - 1)%Z
  end.

Definition binary_search_with_guess (key : R) (arr : list R) (guess : Z) : Z :=
  let len := Z.of_nat (length arr) in
  if Rlt_dec (item arr (len - 1)) key then len
  else if Rlt_dec key (item arr 0) then (-1)%Z
  else if (len <=? 4)%Z then Z.of_nat (linear_search key arr)
  else
    let guess := if (len - 3 <? guess)%Z then (len - 3)%Z else guess in
    let guess := if (guess <? 1)%Z then 1%Z else guess in
    let search imin imax := bisect (Z.to_nat (imax - imin)) key arr imin imax in
    if Rlt_dec key (item arr guess) then
      if Rlt_dec key (item arr (guess - 1)) then
        let imin :=
          if (LIKELY_IN_CACHE_SIZE <? guess)%Z then
            if Rle_dec (item arr (guess - LIKELY_IN_CACHE_SIZE)) key
            then (guess - LIKELY_IN_CACHE_SIZE)%Z else 0%Z
          else 0%Z in
        search imin (guess - 1)%Z
      else (guess - 1)%Z
    else if Rlt_dec key (item arr (guess + 1)) then guess
    else if Rlt_dec key (item arr (guess + 2)) then (guess + 1)%Z
    else
      let imax :=
        if (guess <? len - LIKELY_IN_CACHE_SIZE - 1)%Z then
          if Rlt_dec key (item arr (guess + LIKELY_IN_CACHE_SIZE))
          then (guess + LIKELY_IN_CACHE_SIZE)%Z else len
        else len in
      search (guess + 2)%Z imax.

(** What the bisection knows about [key] between its two ends: the sample
    point before [imin] is not above [key], the one at [imax] is. *)
Definition bracket (key : R) (arr : list R) (imin imax : Z) : Prop :=
  (0 <= imin <= imax)%Z /\ (imax <= Z.of_nat (length arr))%Z
  /\ ((0 < imin)%Z -> (item arr (imin - 1) <= key)%R)
  /\ ((imax < Z.of_nat (length arr))%Z -> (key < item arr imax)%R).

(** The value for a query [x] once its index [j] is known. *)
Definition interp_value (xp fp : list R) (j : Z) (x : R) : R :=
  let len := Z.of_nat (length xp) in
  let lval := item fp 0 in
  let rval := item fp (len - 1) in
  if (j =? -1)%Z then lval
  else if (j =? len)%Z then rval
  else if (j =? len - 1)%Z then item fp j
  else if Req_dec_T (item xp j) x then item fp j
  else
    let slope :=
      ((item fp (j + 1) - item fp j) / (item xp (j + 1) - item xp j))%R in
    (slope * (x - item xp j) + item fp j)%R.

(** The loop over the queries; [j] is the index found for the query
    before. *)
Fixpoint interp_loop (xp fp : list R) (j : Z) (x : list R) : list R :=
  match x with
  | [] => []
  | x_val :: rest =>
      let j' := binary_search_with_guess x_val xp j in
      interp_value xp fp j' x_val :: interp_loop xp fp j' rest
  end.

Definition np_interp (x xp fp : list R) : result (list R) :=
  if Nat.eqb (length xp) 0 then
    Raise (ValueError ["array of sample points is empty"%string])
  else if negb (Nat.eqb (length fp) (length xp)) then
    Raise (ValueError ["fp and xp are not of the same length."%string])
  else
    let lval := item fp 0 in
    let rval := item fp (Z.of_nat (length xp) - 1) in
    if Nat.eqb (length xp) 1 then
      let xp_val := item xp 0 in
      let fp_val := item fp 0 in
      Ok (map (fun x_val =>
                 if Rlt_dec x_val xp_val then lval
                 else if Rlt_dec xp_val x_val then rval
                 else fp_val) x)
    else Ok (interp_loop xp fp 0%Z x).

(** ** Response accessors *)

(** What a scalar accessor can hand back: a float, [None], or the class
    [NotImplementedError] itself. *)
Inductive pyobj :=
| ObjNone
| ObjFloat (x : R)
| NotImplementedError.

(** [obj * scale] for a float [scale]. *)
Definition py_mul (obj : pyobj) (scale : R) : result pyobj :=
  match obj with
  | ObjFloat x => Ok (ObjFloat (x * scale))
  | _ => Raise TypeError
  end.

(** [self.PERIODS[self.INDICES_PSA]]. *)
Definition periods (self : Model) : result (list R) :=
  fancy_index (PERIODS (cls self)) (INDICES_PSA_dtype (cls self)) (INDICES_PSA (cls self)).

(** [_resp] at a single index (or [None]). *)
Definition _resp (self : Model) (index : option Z) : result pyobj :=
  match index with
  | Some i =>
      x <-- subscript (_ln_resp self) (fun a => getitem a i) ;;
      Ok (ObjFloat (exp x))
  | None => Ok ObjNone
  end.

(** [array[self.INDICES_PSA]]. *)
Definition at_indices_psa (self : Model) (array : list R) : result (list R) :=
  fancy_index array (INDICES_PSA_dtype (cls self)) (INDICES_PSA (cls self)).

(** [_resp] at the array of indices [INDICES_PSA]. *)
Definition _resp_array (self : Model) : result (list R) :=
  xs <-- subscript (_ln_resp self) (at_indices_psa self) ;;
  Ok (map exp xs).

Definition spec_accels (self : Model) : result (list R) :=
  _resp_array self.

Definition ln_stds (self : Model) : result (list R) :=
  subscript (_ln_std self) (at_indices_psa self).

Definition interp_spec_accels (self : Model) (query : list R) : result (list R) :=
  xp <-- periods self ;;
  fp <-- subscript (_ln_resp self) (at_indices_psa self) ;;
  ys <-- np_interp (map ln query) (map ln xp) fp ;;
  Ok (map exp ys).

Definition interp_ln_stds (self : Model) (query : list R) : result (list R) :=
  xp <-- periods self ;;
  fp <-- subscript (_ln_std self) (at_indices_psa self) ;;
  np_interp (map ln query) (map ln xp) fp.

Definition pga (self : Model) : result pyobj :=
  match INDEX_PGA (cls self) with
  | None => Ok NotImplementedError
  | Some _ => _resp self (INDEX_PGA (cls self))
  end.

Definition pgv (self : Model) : result pyobj :=
  match INDEX_PGV (cls self) with
  | None => Ok NotImplementedError
  | Some _ =>
      r <-- _resp self (INDEX_PGV (cls self)) ;;
      py_mul r (PGV_SCALE (cls self))
  end.

Definition pgd (self : Model) : result pyobj :=
  match INDEX_PGD (cls self) with
  | None => Ok NotImplementedError
  | Some _ =>
      r <-- _resp self (INDEX_PGD (cls self)) ;;
      py_mul r (PGD_SCALE (cls self))
  end.

Definition ln_std_pga (self : Model) : result pyobj :=
  match INDEX_PGA (cls self) with
  | None => Ok NotImplementedError
  | Some i =>
      x <-- subscript (_ln_std self) (fun a => getitem a i) ;;
      Ok (ObjFloat x)
  end.

Definition ln_std_pgv (self : Model) : result pyobj :=
  match INDEX_PGV (cls self) with
  | None => Ok NotImplementedError
  | Some i =>
      x <-- subscript (_ln_std self) (fun a => getitem a i) ;;
      Ok (ObjFloat x)
  end.

Definition ln_std_pgd (self : Model) : result pyobj :=
  match INDEX_PGD (cls self) with
  | None => Ok NotImplementedError
  | Some i =>
      x <-- subscript (_ln_std self) (fun a => getitem a i) ;;
      Ok (ObjFloat x)
  end.

(** The class attributes of [Model] itself, which a concrete model
    overrides. [np.array([])] is an empty array of floats. *)
Definition Model_defaults : ModelClass :=
  {| PARAMS := [];
     PERIODS := [];
     INDICES_PSA := []; INDICES_PSA_dtype := float64;
     INDEX_PGA := None;
     INDEX_PGV := None;
     INDEX_PGD := None;
     PGV_SCALE := 1%R;
     PGD_SCALE := 1%R |}.

(** [f] applied to what a call returns. *)
Definition result_map {A B} (f : A -> B) (r : result A) : result B :=
  x <-- r ;; Ok (f x).

(** A model whose two supported periods are tabulated from the longer to
    the shorter one. *)
Definition descending_class : ModelClass :=
  {| PARAMS := [];
     PERIODS := [2; 1]%R;
     INDICES_PSA := [0; 1]%Z; INDICES_PSA_dtype := int64;
     INDEX_PGA := None;
     INDEX_PGV := None;
     INDEX_PGD := None;
     PGV_SCALE := 1%R;
     PGD_SCALE := 1%R |}.

Definition descending_model : Model :=
  {| cls := descending_class; params := ∅;
     _ln_resp := Some [0; 1]%R; _ln_std := Some [0.5; 0.6]%R |}.

(** An instance of the example class with its arrays computed. *)
Definition example_model : Model :=
  {| cls := example_class; params := {[ "mag" := PyNum 6 ]};
     _ln_resp := Some [1; 0.5; 0.25; 0]%R;
     _ln_std := Some [0.6; 0.65; 0.7; 0.5]%R |}.

(** What construction stores for a parameter: the value given, or the
    default when nothing (or [None]) is given. *)
Definition resolved (p : param) (v : pyval) : pyval :=
  if is_None v then _default (param_base p) else v.

(** The records logged by the checks of the parameters [ps] against the
    keyword arguments, in the order of [ps]. *)
Definition check_logs (ps : list param) (kwds : gmap string pyval) : list LogRecord :=
  flat_map (fun p => fst (param_check p (dict_get kwds (param_name p)))) ps.

(** An index that [getitem] accepts for an array of length [n]. *)
Definition index_ok (n : nat) (i : Z) : Prop :=
  (- Z.of_nat n <= i < Z.of_nat n)%Z.

(** A class that declares an optional site velocity before its required
    magnitude. *)
Definition site_params : list param :=
  [ Numeric (NumericParameter_init "v_s30" false (Some 150%Q) (Some 1500%Q) (PyNum 760));
    Numeric (NumericParameter_init "mag" true (Some 3%Q) (Some 8.5%Q) PyNone) ].

Definition site_class : ModelClass :=
  {| PARAMS := site_params;
     PERIODS := [0.1; 1; 2]%R;
     INDICES_PSA := [0; 1; 2]%Z; INDICES_PSA_dtype := int64;
     INDEX_PGA := Some 3%Z;
     INDEX_PGV := None;
     INDEX_PGD := None;
     PGV_SCALE := 1%R;
     PGD_SCALE := 1%R |}.

(** The position that an accepted index designates: a negative index
    counts from the end. *)
Definition position (n : nat) (i : Z) : nat :=
  Z.to_nat (if (i <? 0)%Z then (i + Z.of_nat n)%Z else i).

(** An integer far beyond the range of a float. *)
Definition huge : Q := inject_Z (10 ^ 400).

(** A model with eight supported periods that are not in increasing order,
    and whose log responses and log standard deviations are the slot
    numbers. *)
Definition shuffled_class : ModelClass :=
  {| PARAMS := [];
     PERIODS := [1; 2; 4; 8; 64; 16; 32; 128]%R;
     INDICES_PSA := [0; 1; 2; 3; 4; 5; 6; 7]%Z; INDICES_PSA_dtype := int64;
     INDEX_PGA := None;
     INDEX_PGV := None;
     INDEX_PGD := None;
     PGV_SCALE := 1%R;
     PGD_SCALE := 1%R |}.

(** The logarithms of its periods, and its tabulated values. *)
Definition shuffled_xp : list R := map ln [1; 2; 4; 8; 64; 16; 32; 128]%R.
Definition shuffled_fp : list R := [0; 1; 2; 3; 4; 5; 6; 7]%R.

Definition shuffled_model : Model :=
  {| cls := shuffled_class; params := ∅;
     _ln_resp := Some [0; 1; 2; 3; 4; 5; 6; 7]%R;
     _ln_std := Some [0; 1; 2; 3; 4; 5; 6; 7]%R |}.

(** * Properties *)

(** ** Parameter checks *)

(** Case analysis on the next comparison of two numbers in the goal. *)
Ltac case_ltb :=
  match goal with
  | |- context [QMicromega.Qlt_bool ?a ?b] =>
      let H := fresh "Hcmp" in
      destruct (QMicromega.Qlt_bool a b) eqn:H;
      [apply QMicromega.Qlt_bool_iff in H|]
  end.

Section NumericCheck.

Variable self : NumericParameter.
Variable x : Q.

Lemma warn_limit_formats (m : message) (limit : Q) :
  formats_g x = true -> formats_g limit = true ->
  warn_limit m (PyNum x) limit = ([warning m], Ok (PyNum x)).
Proof. intros Hx Hl. unfold warn_limit, format_g. now rewrite Hx, Hl. Qed.

Lemma warn_limit_overflow (m : message) (limit : Q) :
  formats_g x = false ->
  warn_limit m (PyNum x) limit = ([], Raise OverflowError).
Proof. intros Hx. unfold warn_limit, format_g. now rewrite Hx. Qed.

(** Before the text of a warning is formatted, the check goes the way of
    the comparisons. *)
Lemma numeric_check_below_step lo :
  _min self = Some lo -> (x < lo)%Q ->
  NumericParameter_check self (PyNum x)
  = warn_limit (LessThanLimit (_name self) (PyNum x) lo) (PyNum x) lo.
Proof.
  intros Hmin Hlt. unfold NumericParameter_check. cbn.
  rewrite Hmin. cbn.
  apply QMicromega.Qlt_bool_iff in Hlt. now rewrite Hlt.
Qed.

Lemma numeric_check_above_step hi :
  ~ below_min self x -> _max self = Some hi -> (hi < x)%Q ->
  NumericParameter_check self (PyNum x)
  = warn_limit (GreaterThanLimit (_name self) (PyNum x) hi) (PyNum x) hi.
Proof.
  intros Hnb Hmax Hlt. unfold NumericParameter_check. cbn.
  apply QMicromega.Qlt_bool_iff in Hlt.
  rewrite Hmax. cbn. rewrite Hlt.
  destruct (_min self) as [lo|] eqn:Hmin; [|reflexivity].
  cbn. destruct (QMicromega.Qlt_bool x lo) eqn:Hb; [|reflexivity].
  exfalso. apply Hnb. exists lo. split; [exact Hmin|].
  now apply QMicromega.Qlt_bool_iff.
Qed.

Lemma numeric_check_below lo :
  _min self = Some lo -> (x < lo)%Q ->
  formats_g x = true -> formats_g lo = true ->
  NumericParameter_check self (PyNum x)
  = ([warning (LessThanLimit (_name self) (PyNum x) lo)], Ok (PyNum x)).
Proof.
  intros Hmin Hlt Hx Hlo.
  now rewrite (numeric_check_below_step lo Hmin Hlt), warn_limit_formats.
Qed.

Lemma numeric_check_above hi :
  ~ below_min self x -> _max self = Some hi -> (hi < x)%Q ->
  formats_g x = true -> formats_g hi = true ->
  NumericParameter_check self (PyNum x)
  = ([warning (GreaterThanLimit (_name self) (PyNum x) hi)], Ok (PyNum x)).
Proof.
  intros Hnb Hmax Hlt Hx Hhi.
  now rewrite (numeric_check_above_step hi Hnb Hmax Hlt), warn_limit_formats.
Qed.

Lemma numeric_check_inside :
  ~ out_of_range self x ->
  NumericParameter_check self (PyNum x) = ([], Ok (PyNum x)).
Proof.
  intros Hin. unfold NumericParameter_check. cbn.
  destruct (_min self) as [lo|] eqn:Hmin; destruct (_max self) as [hi|] eqn:Hmax; cbn;
    repeat case_ltb; try reflexivity; exfalso; apply Hin;
    solve [ left; exists lo; split; [exact Hmin | assumption]
          | right; exists hi; split; [exact Hmax | assumption] ].
Qed.

Lemma below_min_dec : below_min self x \/ ~ below_min self x.
Proof.
  unfold below_min. destruct (_min self) as [lo|].
  - destruct (Qlt_le_dec x lo) as [H|H].
    + left. eauto.
    + right. intros (lo' & Heq & Hlt). injection Heq as <-.
      now apply (Qlt_not_le _ _ Hlt).
  - right. intros (lo' & Heq & _). discriminate.
Qed.


End NumericCheck.

(** C3 (as amended). [NumericParameter.check] on a present number: a
    number inside the bounds is returned as it was given, nothing is logged
    and nothing is raised. A number outside the bounds that, like the
    bounds, is within the range of a float is returned as it was given and
    logged by exactly one record, of level [WARNING], which carries the name
    of the parameter, the value and the bound that is violated. *)
Theorem numeric_check_present (self : NumericParameter) (x : Q) :
  (~ out_of_range self x ->
   NumericParameter_check self (PyNum x) = ([], Ok (PyNum x)))
  /\ (out_of_range self x -> formats_g x = true -> bounds_format self ->
      snd (NumericParameter_check self (PyNum x)) = Ok (PyNum x)
      /\ exists bound m,
          fst (NumericParameter_check self (PyNum x)) = [{| levelno := WARNING; msg := m |}]
          /\ ((m = LessThanLimit (_name self) (PyNum x) bound
               /\ _min self = Some bound /\ (x < bound)%Q)
              \/ (m = GreaterThanLimit (_name self) (PyNum x) bound
                  /\ _max self = Some bound /\ (bound < x)%Q))).
Proof.
  split; [apply numeric_check_inside|].
  intros Hout Hx Hb.
  destruct (below_min_dec self x) as [(lo & Hmin & Hlt)|Hnb].
  - rewrite (numeric_check_below self x lo Hmin Hlt Hx) by (apply Hb; now left).
    split; [reflexivity|].
    exists lo, (LessThanLimit (_name self) (PyNum x) lo).
    split; [reflexivity|]. left. auto.
  - destruct Hout as [Hbelow|(hi & Hmax & Hlt)]; [now destruct (Hnb Hbelow)|].
    rewrite (numeric_check_above self x hi Hnb Hmax Hlt Hx) by (apply Hb; now right).
    split; [reflexivity|].
    exists hi, (GreaterThanLimit (_name self) (PyNum x) hi).
    split; [reflexivity|]. right. auto.
Qed.

(** The scenario of a magnitude of 9 checked against the range from 4 to 8. *)
Lemma numeric_check_present_witness :
  let mag := NumericParameter_init "mag" false (Some 4%Q) (Some 8%Q) PyNone in
  out_of_range mag 9
  /\ snd (NumericParameter_check mag (PyNum 9)) = Ok (PyNum 9)
  /\ exists bound m,
       fst (NumericParameter_check mag (PyNum 9)) = [{| levelno := WARNING; msg := m |}]
       /\ ((m = LessThanLimit "mag" (PyNum 9) bound
            /\ Some 4%Q = Some bound /\ (9 < bound)%Q)
           \/ (m = GreaterThanLimit "mag" (PyNum 9) bound
               /\ Some 8%Q = Some bound /\ (bound < 9)%Q)).
Proof.
  intros mag.
  assert (Hout : out_of_range mag 9).
  { right. exists 8%Q. split; reflexivity. }
  assert (Hb : bounds_format mag).
  { intros b [Hb|Hb]; injection Hb as <-; reflexivity. }
  split; [exact Hout|].
  apply (numeric_check_present mag 9); [exact Hout|reflexivity|exact Hb].
Defined.

(** C3 (as stated) fails in two ways. A present string is compared with a
    bound, which raises a [TypeError]. An integer beyond the range of a float
    that is outside the bounds cannot be formatted into the warning: the
    check raises an [OverflowError] and logs nothing. *)
Lemma numeric_check_present_counterexample :
  let mag := NumericParameter_init "mag" false (Some 4%Q) (Some 8%Q) PyNone in
  NumericParameter_check mag (PyStr "7.5") = ([], Raise TypeError)
  /\ out_of_range mag huge
  /\ NumericParameter_check mag (PyNum huge) = ([], Raise OverflowError).
Proof.
  intros mag. split; [reflexivity|].
  assert (Hlt : (8 < huge)%Q) by (unfold huge; apply Qlt_alt; vm_compute; reflexivity).
  assert (Hnb : ~ below_min mag huge).
  { intros (lo & Hmin & Hlo). injection Hmin as <-.
    apply (Qlt_irrefl 4). apply Qlt_trans with huge; [|exact Hlo].
    apply Qlt_trans with 8%Q; [reflexivity|exact Hlt]. }
  split.
  - right. exists 8%Q. split; [reflexivity|exact Hlt].
  - rewrite (numeric_check_above_step mag huge 8 Hnb eq_refl Hlt).
    apply warn_limit_overflow. vm_compute. reflexivity.
Qed.

Lemma is_None_false (v : pyval) : v <> PyNone -> is_None v = false.
Proof. now destruct v. Qed.

Lemma categorical_check_not_option (self : CategoricalParameter) (value : pyval) :
  value <> PyNone ->
  py_in value (_options self) = false ->
  CategoricalParameter_check self value
  = ([{| levelno := if _required self then ERROR else WARNING;
         msg := NotAnOption (_name self) value (_options self) |}], Ok value).
Proof.
  intros Hpresent Hin. unfold CategoricalParameter_check.
  rewrite (is_None_false value Hpresent), Hin. reflexivity.
Qed.

Lemma categorical_check_option (self : CategoricalParameter) (value : pyval) :
  value <> PyNone ->
  py_in value (_options self) = true ->
  CategoricalParameter_check self value = ([], Ok value).
Proof.
  intros Hpresent Hin. unfold CategoricalParameter_check.
  rewrite (is_None_false value Hpresent), Hin. reflexivity.
Qed.

(** C4. [CategoricalParameter.check] on a present value returns the value
    as it was given. A value that is not one of the options is logged by one
    record listing the options, of level [ERROR] exactly when the parameter
    is required and [WARNING] otherwise; a value among the options logs
    nothing. *)
Theorem categorical_check_present (self : CategoricalParameter) (value : pyval) :
  value <> PyNone ->
  (py_in value (_options self) = false ->
   exists e,
     CategoricalParameter_check self value = ([e], Ok value)
     /\ msg e = NotAnOption (_name self) value (_options self)
     /\ (levelno e = ERROR <-> _required self = true)
     /\ (levelno e = WARNING <-> _required self = false))
  /\ (py_in value (_options self) = true ->
      CategoricalParameter_check self value = ([], Ok value)).
Proof.
  intros Hpresent. split; intros Hin.
  - eexists. split; [now apply categorical_check_not_option|].
    cbn. split; [reflexivity|].
    destruct (_required self); split; split; congruence.
  - now apply categorical_check_option.
Qed.

(** The scenario of a required fault mechanism given a value that is not an
    option. *)
Lemma categorical_check_present_witness :
  let mechanism :=
    CategoricalParameter_init "mechanism" true
      (Some [PyStr "SS"; PyStr "NM"; PyStr "RS"]) (PyStr "") in
  (exists e,
     CategoricalParameter_check mechanism (PyStr "XX") = ([e], Ok (PyStr "XX"))
     /\ msg e = NotAnOption "mechanism" (PyStr "XX") [PyStr "SS"; PyStr "NM"; PyStr "RS"]
     /\ (levelno e = ERROR <-> true = true)
     /\ (levelno e = WARNING <-> true = false))
  /\ CategoricalParameter_check mechanism (PyStr "NM") = ([], Ok (PyStr "NM")).
Proof.
  intros mechanism. split.
  - apply (categorical_check_present mechanism (PyStr "XX")); [discriminate | reflexivity].
  - apply (categorical_check_present mechanism (PyStr "NM")); [discriminate | reflexivity].
Defined.

(** C8. Checking an absent value against a parameter that is not required,
    numeric or categorical, returns the declared default, logs nothing and
    does not raise. *)
Theorem check_absent_returns_default (p : param) :
  _required (param_base p) = false ->
  param_check p PyNone = ([], Ok (_default (param_base p))).
Proof.
  intros Hreq. destruct p as [q|q]; cbn in *.
  - unfold NumericParameter_check. cbn. now rewrite Hreq.
  - unfold CategoricalParameter_check. cbn. now rewrite Hreq.
Qed.

Lemma check_absent_returns_default_witness :
  param_check (Numeric (NumericParameter_init "depth_tor" false (Some 0%Q) (Some 20%Q) (PyNum 5)))
              PyNone = ([], Ok (PyNum 5))
  /\ param_check (Categorical (CategoricalParameter_init "region" false
                                 (Some [PyStr "global"; PyStr "japan"]) (PyStr "global")))
                 PyNone = ([], Ok (PyStr "global")).
Proof.
  split.
  - apply (check_absent_returns_default
             (Numeric (NumericParameter_init "depth_tor" false (Some 0%Q) (Some 20%Q) (PyNum 5)))).
    reflexivity.
  - apply (check_absent_returns_default
             (Categorical (CategoricalParameter_init "region" false
                             (Some [PyStr "global"; PyStr "japan"]) (PyStr "global")))).
    reflexivity.
Defined.

(** C10. The default that stands in for an absent value is returned as it
    is: no comparison with the bounds, no membership test and no log record,
    also for a default that the same check would report if it were passed as
    a value (a number outside the bounds that formats as the bounds do, or
    the empty string of a categorical parameter whose options do not contain
    it). *)
Theorem default_not_validated :
  (forall self : NumericParameter,
      _required self = false ->
      NumericParameter_check self PyNone = ([], Ok (_default self))
      /\ forall d, _default self = PyNum d -> out_of_range self d ->
           formats_g d = true -> bounds_format self ->
           fst (NumericParameter_check self (_default self)) <> [])
  /\ (forall self : CategoricalParameter,
      _required self = false ->
      CategoricalParameter_check self PyNone = ([], Ok (_default self))
      /\ (_default self <> PyNone ->
          py_in (_default self) (_options self) = false ->
          fst (CategoricalParameter_check self (_default self)) <> []))
  /\ (let mechanism :=
        CategoricalParameter_init "mechanism" false (Some [PyStr "SS"; PyStr "NM"]) (PyStr "") in
      py_in (_default mechanism) (_options mechanism) = false
      /\ CategoricalParameter_check mechanism PyNone = ([], Ok (PyStr ""))).
Proof.
  split; [|split].
  - intros self Hreq. split.
    + unfold NumericParameter_check. cbn. now rewrite Hreq.
    + intros d Hd Hout Hfmt Hbounds. rewrite Hd.
      destruct (below_min_dec self d) as [(lo & Hmin & Hlt)|Hnb].
      * rewrite (numeric_check_below self d lo Hmin Hlt Hfmt); [discriminate|].
        apply Hbounds. now left.
      * destruct Hout as [Hb|(hi & Hmax & Hlt)]; [now destruct (Hnb Hb)|].
        rewrite (numeric_check_above self d hi Hnb Hmax Hlt Hfmt); [discriminate|].
        apply Hbounds. now right.
  - intros self Hreq. split.
    + unfold CategoricalParameter_check. cbn. now rewrite Hreq.
    + intros Hpresent Hnot.
      now rewrite (categorical_check_not_option self (_default self) Hpresent Hnot).
  - split; reflexivity.
Qed.

(** ** Construction *)

Section Construction.

Implicit Types (ps : list param) (d kwds : gmap string pyval) (k : string).

Lemma dict_get_insert d k k' v :
  dict_get (<[k := v]> d) k' = if decide (k = k') then v else dict_get d k'.
Proof.
  unfold dict_get. rewrite lookup_insert. now case_decide.
Qed.

Lemma foldl_select_lookup ps kwds d k :
  foldl (fun d p => <[param_name p := dict_get kwds (param_name p)]> d) d ps !! k
  = if decide (k ∈ map param_name ps) then Some (dict_get kwds k) else d !! k.
Proof.
  revert d. induction ps as [|p ps IH]; intros d; cbn.
  - case_decide as H; [|reflexivity]. now apply elem_of_nil in H.
  - rewrite IH. case_decide as Hin.
    + rewrite decide_True; [reflexivity|]. now apply list_elem_of_further.
    + rewrite lookup_insert. case_decide as Heq.
      * subst k. rewrite decide_True; [reflexivity|]. apply list_elem_of_here.
      * rewrite decide_False; [reflexivity|].
        intros [?|?]%elem_of_cons; congruence.
Qed.

Lemma select_params_lookup ps kwds k :
  select_params ps kwds !! k
  = if decide (k ∈ map param_name ps) then Some (dict_get kwds k) else None.
Proof. unfold select_params. now rewrite foldl_select_lookup, lookup_empty. Qed.

Lemma select_params_get ps kwds p :
  p ∈ ps -> dict_get (select_params ps kwds) (param_name p) = dict_get kwds (param_name p).
Proof.
  intros Hin. unfold dict_get at 1. rewrite select_params_lookup.
  rewrite decide_True; [reflexivity|]. now apply list_elem_of_fmap_2.
Qed.

Lemma select_params_dom ps kwds :
  dom (select_params ps kwds) = list_to_set (map param_name ps).
Proof.
  apply set_eq. intros k. rewrite elem_of_dom, select_params_lookup, elem_of_list_to_set.
  case_decide as H; split; intros H'; try done; now destruct H'.
Qed.

(** Keyword arguments that agree on the declared names select the same
    dictionary. *)
Lemma select_params_agree ps kwds kwds' :
  (forall p, p ∈ ps -> dict_get kwds (param_name p) = dict_get kwds' (param_name p)) ->
  select_params ps kwds = select_params ps kwds'.
Proof.
  intros Hagree. apply map_eq. intros k. rewrite !select_params_lookup.
  case_decide as Hin; [|reflexivity].
  apply list_elem_of_fmap in Hin as (p & -> & Hp). now rewrite (Hagree p Hp).
Qed.

Lemma check_inputs_dom ps d log d' :
  _check_inputs ps d = (log, Ok d') ->
  dom d' = dom d ∪ list_to_set (map param_name ps).
Proof.
  revert d log. induction ps as [|p ps IH]; intros d log; cbn.
  - intros [= _ <-]. cbn. now rewrite (right_id_L ∅ (∪)).
  - destruct (param_check p (dict_get d (param_name p))) as [l [v|e]]; [|discriminate].
    destruct (_check_inputs ps (<[param_name p := v]> d)) as [l' r] eqn:Hrest.
    intros [= _ ->]. rewrite (IH _ _ Hrest), dom_insert_L. cbn.
    rewrite (comm_L (∪) {[param_name p]} (dom d)). now rewrite (assoc_L (∪)).
Qed.




End Construction.

Section CheckInputs.

Implicit Types (ps : list param) (d kwds : gmap string pyval).

(** Storing the result for one name leaves what the other names hold. *)
Lemma dict_get_other d (p q : param) v :
  param_name p <> param_name q ->
  dict_get (<[param_name p := v]> d) (param_name q) = dict_get d (param_name q).
Proof. intros Hne. rewrite dict_get_insert. now rewrite decide_False. Qed.





End CheckInputs.






(** C9. A keyword argument whose name is not declared in [PARAMS] changes
    nothing: the log, the outcome and the instance are those of the call
    without it. After a construction that succeeds, the keys of [params] are
    exactly the declared names. *)
Theorem Model_init_params_keys (c : ModelClass) (kwds : gmap string pyval) :
  (forall k v,
      k ∉ declared_names c ->
      Model_init c (<[k := v]> kwds) = Model_init c kwds)
  /\ (forall log self,
      Model_init c kwds = (log, Ok self) ->
      dom (params self) = list_to_set (declared_names c)
      /\ forall k, k ∉ declared_names c -> params self !! k = None).
Proof.
  split.
  - intros k v Hk. unfold Model_init.
    rewrite (select_params_agree (PARAMS c) (<[k := v]> kwds) kwds); [reflexivity|].
    intros p Hp. rewrite dict_get_insert. rewrite decide_False; [reflexivity|].
    intros ->. apply Hk. unfold declared_names. now apply list_elem_of_fmap_2.
  - intros log self. unfold Model_init.
    destruct (_check_inputs (PARAMS c) (select_params (PARAMS c) kwds))
      as [l [d'|e]] eqn:Hrun; [|discriminate].
    intros [= _ <-]. cbn.
    assert (Hdom : dom d' = list_to_set (declared_names c)).
    { rewrite (check_inputs_dom _ _ _ _ Hrun), select_params_dom.
      unfold declared_names. now rewrite (idemp_L (∪)). }
    split; [exact Hdom|].
    intros k Hk. apply not_elem_of_dom. rewrite Hdom.
    now rewrite elem_of_list_to_set.
Qed.

(** An undeclared keyword next to a magnitude: the instance of the example
    class holds the three declared names and nothing else. *)
Lemma Model_init_params_keys_witness :
  Model_init example_class (<["vs30" := PyNum 760]> {[ "mag" := PyNum 6 ]})
  = Model_init example_class {[ "mag" := PyNum 6 ]}
  /\ exists log self,
      Model_init example_class {[ "mag" := PyNum 6 ]} = (log, Ok self)
      /\ dom (params self) = {[ "mag"; "depth_hyp"; "mechanism" ]}
      /\ params self !! "vs30" = None.
Proof.
  assert (Hnew : "vs30" ∉ declared_names example_class).
  { apply (bool_decide_unpack _). vm_compute. exact I. }
  destruct (Model_init_params_keys example_class {[ "mag" := PyNum 6 ]}) as [Hignore Hkeys].
  split; [now apply Hignore|].
  destruct (Model_init example_class {[ "mag" := PyNum 6 ]}) as [log [self|e]] eqn:Hrun.
  - exists log, self. destruct (Hkeys log self eq_refl) as [Hdom Hout].
    split; [reflexivity|]. split; [|now apply Hout].
    rewrite Hdom. cbn. now rewrite (right_id_L ∅ (∪)), !(assoc_L (∪)).
  - exfalso. revert Hrun. vm_compute. discriminate.
Defined.

(** ** Scalar accessors *)

(** C1 (evaluation of the code). On a model that does not support the
    quantity, where the index is [None] as in [Model] itself, [pga], [pgv]
    and [pgd] do not raise: each returns the class [NotImplementedError] as
    an ordinary value, whatever the arrays hold. *)
Theorem unsupported_scalar_is_returned (resp std : option (list R)) :
  let self := {| cls := Model_defaults; params := ∅; _ln_resp := resp; _ln_std := std |} in
  pga self = Ok NotImplementedError
  /\ pgv self = Ok NotImplementedError
  /\ pgd self = Ok NotImplementedError.
Proof. cbn. repeat split. Qed.

Lemma resp_at (self : Model) (resp : list R) (i : Z) (x : R) :
  _ln_resp self = Some resp -> getitem resp i = Ok x ->
  _resp self (Some i) = Ok (ObjFloat (exp x)).
Proof. intros Hresp Hget. unfold _resp. rewrite Hresp. cbn. now rewrite Hget. Qed.

(** C7. With the arrays populated, [pgv] is the exponential of the entry
    of [_ln_resp] at [INDEX_PGV] times [PGV_SCALE], so an entry of 0 and a
    scale of 2 give 2; [pgd] is scaled by [PGD_SCALE] in the same way, and
    [pga] is the exponential alone. *)
Theorem pgv_is_scaled (self : Model) (resp : list R) (i : Z) (x : R) :
  _ln_resp self = Some resp ->
  getitem resp i = Ok x ->
  (INDEX_PGV (cls self) = Some i ->
   pgv self = Ok (ObjFloat (exp x * PGV_SCALE (cls self)))
   /\ (x = 0%R -> PGV_SCALE (cls self) = 2%R -> pgv self = Ok (ObjFloat 2)))
  /\ (INDEX_PGD (cls self) = Some i ->
      pgd self = Ok (ObjFloat (exp x * PGD_SCALE (cls self))))
  /\ (INDEX_PGA (cls self) = Some i ->
      pga self = Ok (ObjFloat (exp x))).
Proof.
  intros Hresp Hget.
  pose proof (resp_at self resp i x Hresp Hget) as Hr.
  split; [|split].
  - intros Hidx. split.
    + unfold pgv. rewrite Hidx, Hr. reflexivity.
    + intros -> Hscale. unfold pgv. rewrite Hidx, Hr. cbn.
      rewrite Hscale, exp_0. do 2 f_equal. lra.
  - intros Hidx. unfold pgd. rewrite Hidx, Hr. reflexivity.
  - intros Hidx. unfold pga. now rewrite Hidx, Hr.
Qed.

(** The example class keeps PGV in slot 3 and scales it by 2. *)
Lemma pgv_is_scaled_witness :
  pgv example_model = Ok (ObjFloat (exp 0 * 2))
  /\ pgv example_model = Ok (ObjFloat 2).
Proof.
  destruct (pgv_is_scaled example_model [1; 0.5; 0.25; 0]%R 3%Z 0%R eq_refl eq_refl)
    as [Hpgv _].
  destruct (Hpgv eq_refl) as [Hval Htwo].
  split; [exact Hval|]. now apply Htwo.
Defined.

(** ** Interpolation *)

Section Interp.

Implicit Types (xp fp : list R) (x a : R) (k : nat).

Lemma nth_gt_head a xp k :
  StronglySorted Rlt (a :: xp) -> (k < length xp)%nat ->
  (a < nth k xp 0)%R.
Proof.
  intros Hs Hk. apply StronglySorted_inv in Hs as [_ Hall].
  rewrite List.Forall_forall in Hall. apply Hall, nth_In, Hk.
Qed.

(** On increasing sample points, the scan started at the [k]-th point
    stops at [k]. *)
Lemma scan_sorted xp a k :
  StronglySorted Rlt (a :: xp) -> (k <= length xp)%nat ->
  scan (nth k (a :: xp) 0%R) xp = k.
Proof.
  revert a k. induction xp as [|b xp IH]; intros a k Hs Hk.
  - cbn in Hk. now replace k with O by lia.
  - destruct k as [|k].
    + cbn. destruct (Rle_dec b a) as [Hle|_]; [|reflexivity].
      pose proof (nth_gt_head a (b :: xp) 0 Hs ltac:(cbn; lia)) as Hlt.
      cbn in Hlt. lra.
    + change (nth (S k) (a :: b :: xp) 0%R) with (nth k (b :: xp) 0%R).
      pose proof (StronglySorted_inv Hs) as [Hs' _].
      cbn [scan]. destruct (Rle_dec b (nth k (b :: xp) 0%R)) as [_|Hn].
      * f_equal. apply IH; [exact Hs'|cbn in Hk; lia].
      * exfalso. apply Hn. destruct k as [|k]; [cbn; lra|].
        left. apply (nth_gt_head b xp k Hs'). cbn in Hk. lia.
Qed.

Lemma sorted_nth_lt xp i j :
  StronglySorted Rlt xp -> (i < j)%nat -> (j < length xp)%nat ->
  (nth i xp 0 < nth j xp 0)%R.
Proof.
  revert i j. induction xp as [|a xp IH]; intros i j Hs Hij Hj; [cbn in Hj; lia|].
  destruct j as [|j]; [lia|]. cbn in Hj. destruct i as [|i].
  - cbn. apply (nth_gt_head a xp j Hs). lia.
  - cbn. apply IH; [|lia|lia]. now apply StronglySorted_inv in Hs.
Qed.

Lemma nth_le_last xp k :
  StronglySorted Rlt xp -> (k < length xp)%nat ->
  (nth k xp 0 <= nth (length xp - 1) xp 0)%R.
Proof.
  intros Hs Hk. destruct (Nat.eq_dec k (length xp - 1)) as [->|Hne]; [lra|].
  left. apply sorted_nth_lt; [exact Hs|lia|lia].
Qed.

Lemma nth_ge_first xp k :
  StronglySorted Rlt xp -> (k < length xp)%nat ->
  (nth O xp 0 <= nth k xp 0)%R.
Proof.
  intros Hs Hk. destruct k as [|k]; [lra|].
  left. apply sorted_nth_lt; [exact Hs|lia|lia].
Qed.

(** Interpolating at a sample point of an increasing grid gives the value
    tabulated there. *)
Lemma interp_at_sample xp fp k :
  StronglySorted Rlt xp -> length fp = length xp -> (k < length xp)%nat ->
  interp_at xp fp (nth k xp 0%R) = nth k fp 0%R.
Proof.
  intros Hs Hlen Hk. unfold interp_at.
  destruct (Rlt_dec (nth (length xp - 1) xp 0%R) (nth k xp 0%R)) as [Hlt|_].
  { pose proof (nth_le_last xp k Hs Hk). lra. }
  destruct (Rlt_dec (nth k xp 0%R) (nth O xp 0%R)) as [Hlt|_].
  { pose proof (nth_ge_first xp k Hs Hk). lra. }
  assert (Hj : linear_search (nth k xp 0%R) xp = k).
  { unfold linear_search. destruct xp as [|a xp]; [cbn in Hk; lia|].
    cbn [tl]. apply scan_sorted; [exact Hs|cbn in Hk; lia]. }
  rewrite Hj. destruct (Nat.eqb k (length xp - 1)); [reflexivity|].
  destruct (Req_dec_T (nth k xp 0%R) (nth k xp 0%R)) as [_|Hne]; [reflexivity|].
  now destruct Hne.
Qed.

Lemma map_interp_at_samples xp fp :
  StronglySorted Rlt xp -> length fp = length xp ->
  map (interp_at xp fp) xp = fp.
Proof.
  intros Hs Hlen. apply (nth_ext _ _ 0%R 0%R).
  - now rewrite length_map.
  - intros k Hk. rewrite length_map in Hk.
    rewrite (nth_indep _ 0%R (interp_at xp fp 0%R)) by now rewrite length_map.
    rewrite map_nth. now apply interp_at_sample.
Qed.

(** The logarithms of increasing positive periods are increasing. *)
Lemma sorted_map_ln (ps : list R) :
  Forall (Rlt 0) ps -> StronglySorted Rlt ps -> StronglySorted Rlt (map ln ps).
Proof.
  intros Hpos Hs. induction Hs as [|a ps Hs IH Hall]; cbn; [constructor|].
  apply Forall_cons in Hpos as [Ha Hpos]. constructor; [now apply IH|].
  rewrite List.Forall_forall in *. intros y Hy.
  apply in_map_iff in Hy as (z & <- & Hz). apply ln_increasing; auto.
Qed.

Lemma take_indices_length {A} (a : list A) (indices : list Z) (xs : list A) :
  take_indices a indices = Ok xs -> length xs = length indices.
Proof.
  revert xs. induction indices as [|i rest IH]; intros xs; cbn.
  - now intros [= <-].
  - destruct (getitem a i) as [y|e]; cbn; [|discriminate].
    destruct (take_indices a rest) as [ys|e]; cbn; [|discriminate].
    intros [= <-]. cbn. f_equal. now apply IH.
Qed.

End Interp.

(** On increasing sample points, the scan started at a query in the
    interval [j] stops at [j]. *)
Lemma scan_interval (xp : list R) (a x : R) (j : nat) :
  StronglySorted Rlt (a :: xp) -> (j <= length xp)%nat ->
  (nth j (a :: xp) 0 <= x)%R ->
  ((j < length xp)%nat -> (x < nth (S j) (a :: xp) 0)%R) ->
  scan x xp = j.
Proof.
  revert a j. induction xp as [|b xp IH]; intros a j Hs Hj Hlo Hhi.
  - cbn in Hj. now replace j with O by lia.
  - pose proof (StronglySorted_inv Hs) as [Hs' _].
    destruct j as [|j].
    + cbn. destruct (Rle_dec b x) as [Hle|_]; [|reflexivity].
      specialize (Hhi ltac:(cbn; lia)). cbn in Hhi. lra.
    + cbn [scan]. change (nth (S j) (a :: b :: xp) 0%R) with (nth j (b :: xp) 0%R) in Hlo.
      destruct (Rle_dec b x) as [_|Hn].
      * f_equal. apply (IH b j Hs'); [cbn in Hj; lia|exact Hlo|].
        intros Hj'. apply Hhi. cbn. lia.
      * exfalso. apply Hn.
        pose proof (nth_ge_first (b :: xp) j Hs' ltac:(cbn in *; lia)) as Hfirst.
        change (nth O (b :: xp) 0%R) with b in Hfirst. lra.
Qed.


Section Search.

Variable key : R.
Variable arr : list R.

Lemma item_of_nat (l : list R) (k : nat) : item l (Z.of_nat k) = nth k l 0%R.
Proof. unfold item. now rewrite Nat2Z.id. Qed.

Lemma scan_le (l : list R) : (scan key l <= length l)%nat.
Proof.
  induction l as [|a l IH]; cbn; [lia|]. destruct (Rle_dec a key); lia.
Qed.

Lemma linear_search_lt : arr <> [] -> (linear_search key arr < length arr)%nat.
Proof.
  intros Hne. unfold linear_search. destruct arr as [|a l]; [now destruct Hne|].
  cbn [tl length]. pose proof (scan_le l). lia.
Qed.

(** The loop keeps what it knows, so it ends on an index that brackets the
    key. *)
Lemma bisect_bracket (fuel : nat) (imin imax : Z) :
  bracket key arr imin imax ->
  (imax - imin <= Z.of_nat fuel)%Z ->
  bracket key arr (bisect fuel key arr imin imax + 1) (bisect fuel key arr imin imax + 1).
Proof.
  revert imin imax. induction fuel as [|fuel IH]; intros imin imax Hb Hfuel.
  - destruct Hb as (Hord & Hlen & Hlo & Hhi). cbn [bisect].
    assert (imax = imin) by lia. subst imax.
    replace (imin - 1 + 1)%Z with imin by lia. repeat split; auto; lia.
  - cbn [bisect]. destruct (Z.ltb_spec imin imax) as [Hlt|Hge].
    + destruct Hb as (Hord & Hlen & Hlo & Hhi).
      rewrite Z.shiftr_div_pow2 by lia. change (2 ^ 1)%Z with 2%Z.
      set (imid := (imin + (imax - imin) / 2)%Z).
      assert (Hmid : (imin <= imid < imax)%Z).
      { unfold imid. pose proof (Z.div_pos (imax - imin) 2 ltac:(lia) ltac:(lia)).
        pose proof (Z.div_lt_upper_bound (imax - imin) 2 (imax - imin) ltac:(lia) ltac:(lia)).
        lia. }
      destruct (Rle_dec (item arr imid) key) as [Hle|Hgt].
      * apply IH; [|lia]. repeat split; try lia.
        -- intros _. now replace (imid + 1 - 1)%Z with imid by lia.
        -- exact Hhi.
      * apply IH; [|lia]. repeat split; try lia.
        -- exact Hlo.
        -- intros _. lra.
    + destruct Hb as (Hord & Hlen & Hlo & Hhi).
      assert (imax = imin) by lia. subst imax.
      replace (imin - 1 + 1)%Z with imin by lia. repeat split; auto; lia.
Qed.

(** The fuel given to the loop, [imax - imin], is enough: any larger amount
    ends on the same index. *)
Lemma bisect_enough_fuel (fuel fuel' : nat) (imin imax : Z) :
  (imax - imin <= Z.of_nat fuel)%Z -> (imax - imin <= Z.of_nat fuel')%Z ->
  bisect fuel key arr imin imax = bisect fuel' key arr imin imax.
Proof.
  revert fuel' imin imax. induction fuel as [|fuel IH]; intros fuel' imin imax H H'.
  - destruct fuel' as [|fuel']; [reflexivity|]. cbn [bisect].
    destruct (Z.ltb_spec imin imax); [lia|reflexivity].
  - cbn [bisect]. destruct (Z.ltb_spec imin imax) as [Hlt|Hge].
    + destruct fuel' as [|fuel']; [lia|]. cbn [bisect].
      destruct (Z.ltb_spec imin imax); [|lia].
      rewrite Z.shiftr_div_pow2 by lia. change (2 ^ 1)%Z with 2%Z.
      set (imid := (imin + (imax - imin) / 2)%Z).
      assert (Hmid : (imin <= imid < imax)%Z).
      { unfold imid. pose proof (Z.div_pos (imax - imin) 2 ltac:(lia) ltac:(lia)).
        pose proof (Z.div_lt_upper_bound (imax - imin) 2 (imax - imin) ltac:(lia) ltac:(lia)).
        lia. }
      destruct (Rle_dec (item arr imid) key); apply IH; lia.
    + destruct fuel' as [|fuel']; [reflexivity|]. cbn [bisect].
      destruct (Z.ltb_spec imin imax); [lia|reflexivity].
Qed.

Hypothesis arr_sorted : StronglySorted Rlt arr.

Lemma item_increasing (i j : Z) :
  (0 <= i < j)%Z -> (j < Z.of_nat (length arr))%Z -> (item arr i < item arr j)%R.
Proof.
  intros Hij Hj. unfold item. apply sorted_nth_lt; [exact arr_sorted|lia|lia].
Qed.

(** On increasing sample points only one index brackets a key, the one the
    scan finds. *)
Lemma bracket_is_scan (j : Z) :
  (0 <= j < Z.of_nat (length arr))%Z ->
  (item arr j <= key)%R ->
  ((j + 1 < Z.of_nat (length arr))%Z -> (key < item arr (j + 1))%R) ->
  Z.of_nat (linear_search key arr) = j.
Proof.
  intros Hj Hlo Hhi. unfold linear_search.
  destruct arr as [|a l] eqn:Harr; [cbn in Hj; lia|]. cbn [tl].
  rewrite (scan_interval l a key (Z.to_nat j)).
  - lia.
  - exact arr_sorted.
  - cbn [length] in Hj. lia.
  - exact Hlo.
  - intros Hlt. replace (S (Z.to_nat j)) with (Z.to_nat (j + 1)) by lia.
    apply Hhi. cbn [length]. lia.
Qed.

(** On increasing sample points the search with a guess finds the index of
    the scan, whatever the guess. *)
Lemma binary_search_is_scan (guess : Z) :
  ~ (item arr (Z.of_nat (length arr) - 1) < key)%R ->
  ~ (key < item arr 0)%R ->
  binary_search_with_guess key arr guess = Z.of_nat (linear_search key arr).
Proof.
  intros Hlast Hfirst. unfold binary_search_with_guess.
  set (len := Z.of_nat (length arr)) in *.
  destruct (Rlt_dec (item arr (len - 1)) key) as [H|_]; [now destruct Hlast|].
  destruct (Rlt_dec key (item arr 0)) as [H|_]; [now destruct Hfirst|].
  destruct (Z.leb_spec len 4) as [_|Hlen]; [reflexivity|].
  set (g0 := if (len - 3 <? guess)%Z then (len - 3)%Z else guess).
  set (g := if (g0 <? 1)%Z then 1%Z else g0).
  assert (Hg : (1 <= g <= len - 3)%Z).
  { unfold g, g0. destruct (Z.ltb_spec (len - 3) guess);
      [destruct (Z.ltb_spec (len - 3) 1)|destruct (Z.ltb_spec guess 1)]; lia. }
  assert (Hfinish : forall imin imax,
             bracket key arr imin imax ->
             bisect (Z.to_nat (imax - imin)) key arr imin imax
             = Z.of_nat (linear_search key arr)).
  { intros imin imax Hb. symmetry.
    pose proof (bisect_bracket (Z.to_nat (imax - imin)) imin imax Hb ltac:(lia))
      as (Hord & Hle & Hlo & Hhi).
    set (r := bisect (Z.to_nat (imax - imin)) key arr imin imax) in *.
    fold len in Hle, Hhi.
    assert (Hr : (0 < r + 1)%Z).
    { destruct (Z.eq_dec (r + 1)%Z 0%Z) as [Hz|Hz]; [|lia].
      exfalso. apply Hfirst. rewrite <- Hz. apply Hhi. lia. }
    apply bracket_is_scan.
    - fold len. lia.
    - replace (item arr r) with (item arr (r + 1 - 1)) by (f_equal; lia). now apply Hlo.
    - exact Hhi. }
  unfold LIKELY_IN_CACHE_SIZE.
  destruct (Rlt_dec key (item arr g)) as [Hg0|Hg0].
  - destruct (Rlt_dec key (item arr (g - 1))) as [Hg1|Hg1].
    + apply Hfinish. unfold bracket. fold len.
      destruct (Z.ltb_spec 8 g) as [Hbig|Hsmall].
      * destruct (Rle_dec (item arr (g - 8)) key) as [Hc|Hc].
        -- repeat split; try lia.
           ++ intros _. left. apply Rlt_le_trans with (item arr (g - 8)); [|exact Hc].
              apply item_increasing; fold len; lia.
           ++ intros _. exact Hg1.
        -- repeat split; try lia. intros _. exact Hg1.
      * repeat split; try lia. intros _. exact Hg1.
    + symmetry. apply bracket_is_scan; fold len; try lia.
      * lra.
      * intros _. now replace (g - 1 + 1)%Z with g by lia.
  - destruct (Rlt_dec key (item arr (g + 1))) as [Hg1|Hg1].
    + symmetry. apply bracket_is_scan; fold len; try lia; [lra|auto].
    + destruct (Rlt_dec key (item arr (g + 2))) as [Hg2|Hg2].
      * symmetry. apply bracket_is_scan; fold len; try lia; [lra|].
        intros _. now replace (g + 1 + 1)%Z with (g + 2)%Z by lia.
      * apply Hfinish. unfold bracket. fold len.
        assert (Hlo : (item arr (g + 2 - 1) <= key)%R).
        { replace (g + 2 - 1)%Z with (g + 1)%Z by lia. lra. }
        destruct (Z.ltb_spec g (len - 8 - 1)) as [Hfar|Hnear].
        -- destruct (Rlt_dec key (item arr (g + 8))) as [Hc|Hc];
             repeat split; try lia; auto.
        -- repeat split; try lia; auto.
Qed.

End Search.

Lemma interp_at_single (x0 f0 x : R) : interp_at [x0] [f0] x = f0.
Proof.
  unfold interp_at. cbn.
  destruct (Rlt_dec x0 x); [reflexivity|]. destruct (Rlt_dec x x0); reflexivity.
Qed.

(** With at most four sample points, or with increasing ones, the routine
    computes the interpolant of the scan for every query, whatever index it
    found for the query before. *)
Lemma interp_value_is_interp_at (xp fp : list R) (j : Z) (x : R) :
  xp <> [] -> length fp = length xp ->
  (length xp <= 4)%nat \/ StronglySorted Rlt xp ->
  interp_value xp fp (binary_search_with_guess x xp j) x = interp_at xp fp x.
Proof.
  intros Hne Hlen Hgrid.
  assert (Hn : (0 < length xp)%nat) by (destruct xp; [now destruct Hne|cbn; lia]).
  assert (Hlast : item xp (Z.of_nat (length xp) - 1) = nth (length xp - 1) xp 0%R).
  { unfold item. f_equal. lia. }
  assert (Hfirst : item xp 0 = nth O xp 0%R) by reflexivity.
  unfold interp_at.
  destruct (Rlt_dec (nth (length xp - 1) xp 0%R) x) as [Habove|Habove].
  { unfold binary_search_with_guess. rewrite Hlast.
    destruct (Rlt_dec (nth (length xp - 1) xp 0%R) x) as [_|H]; [|now destruct H].
    unfold interp_value.
    destruct (Z.eqb_spec (Z.of_nat (length xp)) (-1)) as [H|_]; [lia|].
    rewrite Z.eqb_refl. unfold item. rewrite Hlen. f_equal. lia. }
  destruct (Rlt_dec x (nth O xp 0%R)) as [Hbelow|Hbelow].
  { unfold binary_search_with_guess. rewrite Hlast, Hfirst.
    destruct (Rlt_dec (nth (length xp - 1) xp 0%R) x) as [H|_]; [now destruct Habove|].
    destruct (Rlt_dec x (nth O xp 0%R)) as [_|H]; [|now destruct H].
    reflexivity. }
  assert (Hj : binary_search_with_guess x xp j = Z.of_nat (linear_search x xp)).
  { destruct Hgrid as [Hsmall|Hsorted].
    - unfold binary_search_with_guess. rewrite Hlast, Hfirst.
      destruct (Rlt_dec (nth (length xp - 1) xp 0%R) x) as [H|_]; [now destruct Habove|].
      destruct (Rlt_dec x (nth O xp 0%R)) as [H|_]; [now destruct Hbelow|].
      destruct (Z.leb_spec (Z.of_nat (length xp)) 4); [reflexivity|lia].
    - apply binary_search_is_scan; [exact Hsorted| |]; now rewrite ?Hlast, ?Hfirst. }
  rewrite Hj. pose proof (linear_search_lt x xp Hne) as Hk.
  set (k := linear_search x xp) in *. unfold interp_value.
  destruct (Z.eqb_spec (Z.of_nat k) (-1)) as [H|_]; [lia|].
  destruct (Z.eqb_spec (Z.of_nat k) (Z.of_nat (length xp))) as [H|_]; [lia|].
  replace (Z.of_nat k + 1)%Z with (Z.of_nat (S k)) by lia.
  rewrite !item_of_nat.
  destruct (Z.eqb_spec (Z.of_nat k) (Z.of_nat (length xp) - 1)) as [H|H];
    destruct (Nat.eqb_spec k (length xp - 1)) as [H'|H']; try lia; reflexivity.
Qed.

Lemma interp_loop_is_map (xp fp : list R) (j : Z) (x : list R) :
  xp <> [] -> length fp = length xp ->
  (length xp <= 4)%nat \/ StronglySorted Rlt xp ->
  interp_loop xp fp j x = map (interp_at xp fp) x.
Proof.
  intros Hne Hlen Hgrid. revert j.
  induction x as [|x_val rest IH]; intros j; cbn [interp_loop map]; [reflexivity|].
  now rewrite interp_value_is_interp_at, IH.
Qed.

Lemma np_interp_ok (x xp fp : list R) :
  xp <> [] -> length fp = length xp ->
  (length xp <= 4)%nat \/ StronglySorted Rlt xp ->
  np_interp x xp fp = Ok (map (interp_at xp fp) x).
Proof.
  intros Hne Hlen Hgrid. unfold np_interp.
  destruct xp as [|x0 xp]; [now destruct Hne|].
  cbn [length Nat.eqb]. rewrite Hlen. cbn [length]. rewrite Nat.eqb_refl. cbn [negb].
  destruct xp as [|x1 xp].
  - destruct fp as [|f0 [|f1 fp]]; try discriminate. cbn [Nat.eqb length]. f_equal.
    apply map_ext. intros q. rewrite interp_at_single.
    change (item [f0] (Z.of_nat 1 - 1)) with f0.
    change (item [f0] 0) with f0. change (item [x0] 0) with x0.
    destruct (Rlt_dec q x0); [reflexivity|]. destruct (Rlt_dec x0 q); reflexivity.
  - cbn [Nat.eqb]. f_equal. now apply interp_loop_is_map.
Qed.

Lemma np_interp_samples (xp fp : list R) :
  xp <> [] -> StronglySorted Rlt xp -> length fp = length xp ->
  np_interp xp xp fp = Ok fp.
Proof.
  intros Hne Hs Hlen. rewrite np_interp_ok; auto.
  now rewrite map_interp_at_samples.
Qed.

(** An array that [INDICES_PSA] selects from is selected by integers. *)
Lemma at_indices_psa_inv (self : Model) (a xs : list R) :
  at_indices_psa self a = Ok xs ->
  INDICES_PSA_dtype (cls self) = int64
  /\ take_indices a (INDICES_PSA (cls self)) = Ok xs.
Proof.
  unfold at_indices_psa, fancy_index.
  destruct (INDICES_PSA_dtype (cls self)); [auto|discriminate].
Qed.

Lemma at_indices_psa_int (self : Model) (a : list R) :
  INDICES_PSA_dtype (cls self) = int64 ->
  at_indices_psa self a = take_indices a (INDICES_PSA (cls self)).
Proof. intros Hdt. unfold at_indices_psa, fancy_index. now rewrite Hdt. Qed.

Lemma periods_inv (self : Model) (ps : list R) :
  periods self = Ok ps ->
  INDICES_PSA_dtype (cls self) = int64
  /\ take_indices (PERIODS (cls self)) (INDICES_PSA (cls self)) = Ok ps.
Proof. apply at_indices_psa_inv. Qed.

(** C5 (as amended). For a model whose supported periods are positive,
    strictly increasing and at least one, interpolating the spectral
    accelerations at exactly these periods gives [spec_accels], entry for
    entry (and raises what [spec_accels] raises when an index of
    [INDICES_PSA] is outside [_ln_resp]). *)
Theorem interp_spec_accels_native (self : Model) (resp ps : list R) :
  _ln_resp self = Some resp ->
  periods self = Ok ps ->
  ps <> [] ->
  Forall (Rlt 0) ps ->
  Sorted Rlt ps ->
  interp_spec_accels self ps = spec_accels self.
Proof.
  intros Hresp Hper Hne Hpos Hsorted.
  apply Sorted_StronglySorted in Hsorted; [|intros a b c; apply Rlt_trans].
  destruct (periods_inv self ps Hper) as [Hdt Hps].
  unfold interp_spec_accels, spec_accels, _resp_array.
  rewrite Hper, Hresp. cbn [bind subscript].
  rewrite (at_indices_psa_int self resp Hdt).
  destruct (take_indices resp (INDICES_PSA (cls self))) as [fp|e] eqn:Hfp; [|reflexivity].
  cbn [bind]. rewrite np_interp_samples; [reflexivity| | |].
  - destruct ps; [now destruct Hne|discriminate].
  - now apply sorted_map_ln.
  - rewrite length_map, (take_indices_length _ _ _ Hfp).
    symmetry. apply (take_indices_length _ _ _ Hps).
Qed.

Lemma interp_spec_accels_native_witness :
  interp_spec_accels example_model [0.1; 1; 2]%R = spec_accels example_model.
Proof.
  apply (interp_spec_accels_native example_model [1; 0.5; 0.25; 0]%R [0.1; 1; 2]%R).
  - reflexivity.
  - reflexivity.
  - discriminate.
  - repeat constructor; lra.
  - repeat constructor; lra.
Defined.

(** C5 (as stated) fails on a grid that is not increasing: on the model
    with periods 2 and 1, interpolating at these periods returns the two
    spectral accelerations in the opposite order, and they differ by more
    than 1. *)
Lemma interp_spec_accels_native_counterexample :
  periods descending_model = Ok [2; 1]%R
  /\ spec_accels descending_model = Ok [exp 0; exp 1]
  /\ interp_spec_accels descending_model [2; 1]%R = Ok [exp 1; exp 0]
  /\ (exp 1 - exp 0 > 1)%R
  /\ interp_spec_accels descending_model [2; 1]%R <> spec_accels descending_model.
Proof.
  assert (Hln : (ln 1 < ln 2)%R) by (apply ln_increasing; lra).
  assert (Hgap : (exp 1 - exp 0 > 1)%R).
  { pose proof (exp_ineq1 1 ltac:(lra)). rewrite exp_0. lra. }
  assert (Hinterp : interp_spec_accels descending_model [2; 1]%R = Ok [exp 1; exp 0]).
  { unfold interp_spec_accels.
    replace (periods descending_model) with (Ok [2; 1]%R) by reflexivity.
    cbn [bind descending_model _ln_resp subscript cls descending_class INDICES_PSA].
    replace (at_indices_psa descending_model [0; 1]%R) with (Ok [0; 1]%R) by reflexivity.
    cbn [bind]. rewrite np_interp_ok; [|discriminate|reflexivity|left; cbn; lia].
    cbn. unfold interp_at. cbn.
    destruct (Rlt_dec (ln 1) (ln 2)) as [_|Hn]; [|now destruct Hn].
    destruct (Rlt_dec (ln 1) (ln 1)) as [Hlt|_]; [lra|].
    reflexivity. }
  repeat split; try assumption; try reflexivity.
  rewrite Hinterp. cbn. intros [= Heq _]. lra.
Qed.

(** On increasing sample points numpy.interp answers each query on its
    own: whether it raises depends on the sample points alone, and the
    entries it returns are those of [interp_at]. *)
Lemma np_interp_map (x xp fp : list R) :
  StronglySorted Rlt xp ->
  np_interp x xp fp = result_map (fun _ => map (interp_at xp fp) x) (np_interp [] xp fp).
Proof.
  intros Hs.
  destruct xp as [|x0 xp]; [reflexivity|].
  destruct (Nat.eq_dec (length fp) (length (x0 :: xp))) as [Hlen|Hlen].
  - rewrite !np_interp_ok; auto; discriminate.
  - unfold np_interp. cbn [length Nat.eqb].
    apply Nat.eqb_neq in Hlen. cbn [length] in Hlen. now rewrite Hlen.
Qed.

Lemma interp_spec_accels_map (self : Model) (ps query : list R) :
  periods self = Ok ps -> Forall (Rlt 0) ps -> StronglySorted Rlt ps ->
  interp_spec_accels self query
  = result_map (fun f => map f query)
      (fp <-- subscript (_ln_resp self) (at_indices_psa self) ;;
       _ <-- np_interp [] (map ln ps) fp ;;
       Ok (fun p => exp (interp_at (map ln ps) fp (ln p)))).
Proof.
  intros Hper Hpos Hs. unfold interp_spec_accels. rewrite Hper. cbn [bind].
  destruct (subscript _ _) as [fp|e]; [|reflexivity]. cbn [bind].
  rewrite np_interp_map by now apply sorted_map_ln.
  destruct (np_interp [] (map ln ps) fp) as [ys|e]; [|reflexivity]. cbn.
  now rewrite !map_map.
Qed.

Lemma interp_ln_stds_map (self : Model) (ps query : list R) :
  periods self = Ok ps -> Forall (Rlt 0) ps -> StronglySorted Rlt ps ->
  interp_ln_stds self query
  = result_map (fun f => map f query)
      (fp <-- subscript (_ln_std self) (at_indices_psa self) ;;
       _ <-- np_interp [] (map ln ps) fp ;;
       Ok (fun p => interp_at (map ln ps) fp (ln p))).
Proof.
  intros Hper Hpos Hs. unfold interp_ln_stds. rewrite Hper. cbn [bind].
  destruct (subscript _ _) as [fp|e]; [|reflexivity]. cbn [bind].
  rewrite np_interp_map by now apply sorted_map_ln.
  destruct (np_interp [] (map ln ps) fp) as [ys|e]; [|reflexivity]. cbn.
  now rewrite !map_map.
Qed.

(** What follows for any accessor that maps one function over the query. *)
Lemma mapped_query_order {A} (r : result (A -> A)) :
  (forall query, result_map (fun f => map f (rev query)) r
                 = result_map (@rev A) (result_map (fun f => map f query) r))
  /\ (forall query ys,
      result_map (fun f => map f query) r = Ok ys ->
      length ys = length query
      /\ forall k p, query !! k = Some p ->
           exists y, ys !! k = Some y /\ result_map (fun f => map f [p]) r = Ok [y]).
Proof.
  destruct r as [f|e]; cbn; split.
  - intros query. now rewrite map_rev.
  - intros query ys [= <-]. split; [apply length_map|].
    intros k p Hk. exists (f p). split; [|reflexivity].
    change (map f query) with (f <$> query). now rewrite list_lookup_fmap, Hk.
  - reflexivity.
  - discriminate.
Qed.

(** C6 (as amended). On a model whose supported periods are positive and
    strictly increasing, both interpolating accessors answer positive query
    periods in the order in which they are asked: swapping two query periods
    swaps the two results, reversing any query reverses the result, and the
    [k]-th entry returned is the answer to the [k]-th query period taken
    alone. *)
Theorem interp_preserves_query_order (self : Model) (ps : list R) :
  periods self = Ok ps ->
  Forall (Rlt 0) ps ->
  Sorted Rlt ps ->
  (forall p1 p2,
      (0 < p1)%R -> (0 < p2)%R ->
      interp_spec_accels self [p2; p1]
      = result_map (@rev R) (interp_spec_accels self [p1; p2])
      /\ interp_ln_stds self [p2; p1]
         = result_map (@rev R) (interp_ln_stds self [p1; p2]))
  /\ (forall query,
      Forall (Rlt 0) query ->
      interp_spec_accels self (rev query)
      = result_map (@rev R) (interp_spec_accels self query)
      /\ interp_ln_stds self (rev query)
         = result_map (@rev R) (interp_ln_stds self query))
  /\ (forall query ys,
      Forall (Rlt 0) query ->
      interp_spec_accels self query = Ok ys ->
      length ys = length query
      /\ forall k p, query !! k = Some p ->
           exists y, ys !! k = Some y /\ interp_spec_accels self [p] = Ok [y])
  /\ (forall query ys,
      Forall (Rlt 0) query ->
      interp_ln_stds self query = Ok ys ->
      length ys = length query
      /\ forall k p, query !! k = Some p ->
           exists y, ys !! k = Some y /\ interp_ln_stds self [p] = Ok [y]).
Proof.
  intros Hper Hpos Hsorted.
  apply Sorted_StronglySorted in Hsorted; [|intros a b c; apply Rlt_trans].
  pose proof (interp_spec_accels_map self ps) as Hsa.
  pose proof (interp_ln_stds_map self ps) as Hsd.
  split; [|split; [|split]].
  - intros p1 p2 _ _. rewrite !Hsa, !Hsd by assumption.
    split; apply (proj1 (mapped_query_order _) [p1; p2]).
  - intros query _. rewrite !Hsa, !Hsd by assumption.
    split; apply (proj1 (mapped_query_order _) query).
  - intros query ys _. rewrite Hsa by assumption. intros Hrun.
    destruct (proj2 (mapped_query_order _) query ys Hrun) as [Hlen Hnth].
    split; [exact Hlen|]. intros k p Hk. rewrite Hsa by assumption.
    now apply (Hnth k p).
  - intros query ys _. rewrite Hsd by assumption. intros Hrun.
    destruct (proj2 (mapped_query_order _) query ys Hrun) as [Hlen Hnth].
    split; [exact Hlen|]. intros k p Hk. rewrite Hsd by assumption.
    now apply (Hnth k p).
Qed.

(** The example model asked at 2 s and 0.5 s, in both orders. *)
Lemma interp_preserves_query_order_witness :
  interp_spec_accels example_model [2; 0.5]%R
  = result_map (@rev R) (interp_spec_accels example_model [0.5; 2]%R)
  /\ interp_ln_stds example_model [2; 0.5]%R
     = result_map (@rev R) (interp_ln_stds example_model [0.5; 2]%R).
Proof.
  assert (Hpos : Forall (Rlt 0) [0.1; 1; 2]%R) by (repeat constructor; lra).
  assert (Hsorted : Sorted Rlt [0.1; 1; 2]%R) by (repeat constructor; lra).
  apply (interp_preserves_query_order example_model [0.1; 1; 2]%R eq_refl Hpos Hsorted);
    lra.
Defined.

(** ** The routine on a grid that is not increasing *)

Lemma ln_chain :
  (ln 1 < ln 2 /\ ln 2 < ln 4 /\ ln 4 < ln 8 /\ ln 8 < ln 16
   /\ ln 16 < ln 32 /\ ln 32 < ln 64 /\ ln 64 < ln 128)%R.
Proof. repeat split; apply ln_increasing; lra. Qed.

(** Settle the next comparison of the routine from the facts at hand. *)
Ltac decide_cmp :=
  match goal with
  | |- context [Rlt_dec ?a ?b] =>
      destruct (Rlt_dec a b); [try (exfalso; lra)|try (exfalso; lra)]
  | |- context [Rle_dec ?a ?b] =>
      destruct (Rle_dec a b); [try (exfalso; lra)|try (exfalso; lra)]
  | |- context [Req_dec_T ?a ?b] =>
      destruct (Req_dec_T a b); [try (exfalso; lra)|try (exfalso; lra)]
  end.

Ltac run_routine :=
  pose proof ln_chain as (?H & ?H & ?H & ?H & ?H & ?H & ?H);
  cbv -[ln exp Rlt_dec Rle_dec Req_dec_T IZR Rdiv Rmult Rminus Rplus Rinv Ropp Rlt Rle];
  repeat (decide_cmp;
          cbv -[ln exp Rlt_dec Rle_dec Req_dec_T IZR Rdiv Rmult Rminus Rplus Rinv Ropp
                Rlt Rle]);
  reflexivity.

(** Asked first, 16 s is searched from the guess 1 and then by bisection,
    which ends at slot 5; 4 s is then found at slot 2. *)
Lemma search_16_first : binary_search_with_guess (ln 16) shuffled_xp 0 = 5%Z.
Proof. run_routine. Qed.

Lemma search_4_after_16 : binary_search_with_guess (ln 4) shuffled_xp 5 = 2%Z.
Proof. run_routine. Qed.

(** Asked first, 4 s is found at slot 2 next to the guess; 16 s is then
    accepted next to that guess, at slot 3, between 8 s and 64 s. *)
Lemma search_4_first : binary_search_with_guess (ln 4) shuffled_xp 0 = 2%Z.
Proof. run_routine. Qed.

Lemma search_16_after_4 : binary_search_with_guess (ln 16) shuffled_xp 2 = 3%Z.
Proof. run_routine. Qed.

Lemma value_16_at_5 : interp_value shuffled_xp shuffled_fp 5 (ln 16) = 5%R.
Proof. run_routine. Qed.

Lemma value_4_at_2 : interp_value shuffled_xp shuffled_fp 2 (ln 4) = 2%R.
Proof. run_routine. Qed.

Lemma value_16_at_3 :
  interp_value shuffled_xp shuffled_fp 3 (ln 16)
  = ((4 - 3) / (ln 64 - ln 8) * (ln 16 - ln 8) + 3)%R.
Proof. run_routine. Qed.

Lemma shuffled_loop_16_4 :
  interp_loop shuffled_xp shuffled_fp 0 [ln 16; ln 4] = [5; 2]%R.
Proof.
  cbn [interp_loop].
  now rewrite search_16_first, search_4_after_16, value_16_at_5, value_4_at_2.
Qed.

Lemma shuffled_loop_4_16 :
  interp_loop shuffled_xp shuffled_fp 0 [ln 4; ln 16]
  = [2; (4 - 3) / (ln 64 - ln 8) * (ln 16 - ln 8) + 3]%R.
Proof.
  cbn [interp_loop].
  now rewrite search_4_first, search_16_after_4, value_4_at_2, value_16_at_3.
Qed.

Lemma shuffled_ln_stds (query : list R) :
  interp_ln_stds shuffled_model query
  = Ok (interp_loop shuffled_xp shuffled_fp 0 (map ln query)).
Proof.
  unfold interp_ln_stds.
  replace (periods shuffled_model) with (Ok [1; 2; 4; 8; 64; 16; 32; 128]%R) by reflexivity.
  cbn [bind shuffled_model _ln_std subscript].
  replace (at_indices_psa _ _) with (Ok shuffled_fp) by reflexivity.
  reflexivity.
Qed.

Lemma shuffled_spec_accels (query : list R) :
  interp_spec_accels shuffled_model query
  = Ok (map exp (interp_loop shuffled_xp shuffled_fp 0 (map ln query))).
Proof.
  unfold interp_spec_accels.
  replace (periods shuffled_model) with (Ok [1; 2; 4; 8; 64; 16; 32; 128]%R) by reflexivity.
  cbn [bind shuffled_model _ln_resp subscript].
  replace (at_indices_psa _ _) with (Ok shuffled_fp) by reflexivity.
  reflexivity.
Qed.

(** C6 (as stated) fails on a grid that is not increasing. On the model
    with the periods 1, 2, 4, 8, 64, 16, 32, 128 and the slot numbers as
    tabulated values, the queries 16 s and 4 s are answered by 5 and 2 in
    this order, but by 2 and a value below 4 when 4 s is asked first: the
    search for 16 s starts from the slot found for the query before. The
    spectral accelerations are the exponentials of these values. *)
Lemma interp_preserves_query_order_counterexample :
  exists v : R,
    (v < 4)%R
    /\ interp_ln_stds shuffled_model [16; 4]%R = Ok [5; 2]%R
    /\ interp_ln_stds shuffled_model [4; 16]%R = Ok [2; v]%R
    /\ interp_ln_stds shuffled_model [16; 4]%R
       <> result_map (@rev R) (interp_ln_stds shuffled_model [4; 16]%R)
    /\ interp_spec_accels shuffled_model [16; 4]%R = Ok [exp 5; exp 2]
    /\ interp_spec_accels shuffled_model [4; 16]%R = Ok [exp 2; exp v]
    /\ interp_spec_accels shuffled_model [16; 4]%R
       <> result_map (@rev R) (interp_spec_accels shuffled_model [4; 16]%R).
Proof.
  exists ((4 - 3) / (ln 64 - ln 8) * (ln 16 - ln 8) + 3)%R.
  assert (Hv : ((4 - 3) / (ln 64 - ln 8) * (ln 16 - ln 8) + 3 < 4)%R).
  { pose proof ln_chain as (_ & _ & _ & H4 & H5 & H6 & _).
    assert (Hr : ((ln 16 - ln 8) / (ln 64 - ln 8) < 1)%R).
    { apply (Rmult_lt_reg_r (ln 64 - ln 8)); [lra|]. unfold Rdiv.
      rewrite Rmult_assoc, Rinv_l by lra. lra. }
    replace ((4 - 3) / (ln 64 - ln 8) * (ln 16 - ln 8))%R
      with ((ln 16 - ln 8) / (ln 64 - ln 8))%R by (field; lra).
    lra. }
  rewrite !shuffled_ln_stds, !shuffled_spec_accels. cbn [map].
  rewrite shuffled_loop_16_4, shuffled_loop_4_16. cbn [map result_map bind rev app].
  split; [exact Hv|]. split; [reflexivity|]. split; [reflexivity|].
  split; [intros [= Heq]; lra|]. split; [reflexivity|]. split; [reflexivity|].
  intros [= Heq].
  pose proof (exp_increasing _ _ Hv). pose proof (exp_increasing 4 5 ltac:(lra)). lra.
Qed.

(** * Further properties of the construction *)

Lemma warn_limit_ok (m : message) (value : pyval) (limit : Q) log v' :
  warn_limit m value limit = (log, Ok v') -> v' = value.
Proof.
  unfold warn_limit. destruct (_ <-- format_g value ;; format_g (PyNum limit));
    [now intros [= _ <-]|discriminate].
Qed.

Lemma warn_limit_raise (m : message) (value : pyval) (limit : Q) log e :
  warn_limit m value limit = (log, Raise e) -> log = [].
Proof.
  unfold warn_limit. destruct (_ <-- format_g value ;; format_g (PyNum limit));
    [discriminate|now intros [= <- _]].
Qed.

Lemma param_check_ok (p : param) (v : pyval) log v' :
  param_check p v = (log, Ok v') -> v' = resolved p v.
Proof.
  unfold resolved. destruct p as [q|q]; cbn.
  - unfold NumericParameter_check.
    destruct v as [|x|s]; cbn.
    + destruct (_required q); cbn; try discriminate. now intros [= _ <-].
    + destruct (_min q) as [lo|], (_max q) as [hi|]; cbn;
        repeat case_ltb; try (now intros [= _ <-]); apply warn_limit_ok.
    + destruct (_min q) as [lo|], (_max q) as [hi|]; cbn;
        try discriminate; now intros [= _ <-].
  - unfold CategoricalParameter_check.
    destruct v as [|x|s]; cbn.
    + destruct (_required q); cbn; try discriminate. now intros [= _ <-].
    + destruct (negb _); now intros [= _ <-].
    + destruct (negb _); now intros [= _ <-].
Qed.

Lemma check_logs_agree (ps : list param) (d d' : gmap string pyval) :
  (forall q, q ∈ ps -> dict_get d (param_name q) = dict_get d' (param_name q)) ->
  check_logs ps d = check_logs ps d'.
Proof.
  unfold check_logs. induction ps as [|p ps IH]; intros Hsame; [reflexivity|].
  cbn [flat_map]. rewrite (Hsame p (list_elem_of_here _ _)). f_equal.
  apply IH. intros q Hq. now apply Hsame, list_elem_of_further.
Qed.

(** The loop over distinct names: every parameter is checked against the
    value the dictionary held at the start, the dictionary ends up holding
    the resolved values, and the log is the logs of the checks in order. *)
Lemma check_inputs_run (ps : list param) (d d' : gmap string pyval) log :
  NoDup (map param_name ps) ->
  _check_inputs ps d = (log, Ok d') ->
  (forall p, p ∈ ps -> d' !! param_name p = Some (resolved p (dict_get d (param_name p))))
  /\ (forall k, k ∉ map param_name ps -> d' !! k = d !! k)
  /\ log = check_logs ps d.
Proof.
  revert d log. induction ps as [|p0 ps IH]; intros d log Hnd; cbn [_check_inputs].
  - intros [= <- <-]. split; [|split; [auto|reflexivity]].
    intros p Hp. now apply elem_of_nil in Hp.
  - destruct (param_check p0 (dict_get d (param_name p0))) as [l [v|e]] eqn:Hchk;
      [|discriminate].
    destruct (_check_inputs ps (<[param_name p0 := v]> d)) as [l' r] eqn:Hrest.
    intros [= <- ->].
    pose proof Hnd as [Hnotin Hnd']%NoDup_cons.
    destruct (IH _ _ Hnd' Hrest) as (Hvals & Hothers & ->).
    assert (Hsame : forall q, q ∈ ps ->
              dict_get (<[param_name p0 := v]> d) (param_name q) = dict_get d (param_name q)).
    { intros q Hq. apply dict_get_other. intros Heq. apply Hnotin.
      rewrite Heq. now apply list_elem_of_fmap_2. }
    split; [|split].
    + intros p [->|Hp]%elem_of_cons.
      * rewrite (Hothers _ Hnotin), lookup_insert_eq.
        now rewrite (param_check_ok _ _ _ _ Hchk).
      * now rewrite (Hvals p Hp), (Hsame p Hp).
    + intros k Hk. apply not_elem_of_cons in Hk as [Hne Hk].
      rewrite (Hothers k Hk). now apply lookup_insert_ne.
    + unfold check_logs. cbn [flat_map]. rewrite Hchk. cbn [fst]. f_equal.
      now apply check_logs_agree.
Qed.

Lemma check_logs_select ps kwds :
  check_logs ps (select_params ps kwds) = check_logs ps kwds.
Proof.
  apply check_logs_agree. intros q Hq. now apply select_params_get.
Qed.

(** X1. After a successful construction of a model with distinct declared
    names, [params] holds for every declared parameter the value that was
    passed, unchanged, or the declared default when none (or [None]) was
    passed. *)
Theorem Model_init_params_values (c : ModelClass) (kwds : gmap string pyval) log self :
  NoDup (declared_names c) ->
  Model_init c kwds = (log, Ok self) ->
  forall p, p ∈ PARAMS c ->
    params self !! param_name p = Some (resolved p (dict_get kwds (param_name p))).
Proof.
  intros Hnd. unfold Model_init.
  destruct (_check_inputs (PARAMS c) (select_params (PARAMS c) kwds))
    as [l [d'|e]] eqn:Hrun; [|discriminate].
  intros [= _ <-] p Hp. cbn.
  destruct (check_inputs_run _ _ _ _ Hnd Hrun) as (Hvals & _ & _).
  now rewrite (Hvals p Hp), select_params_get.
Qed.

Lemma example_names_distinct : NoDup (declared_names example_class).
Proof. apply (bool_decide_unpack _). vm_compute. exact I. Qed.

Lemma example_init_ok :
  exists log self,
    Model_init example_class {[ "mag" := PyNum 9; "mechanism" := PyStr "XX" ]}
    = (log, Ok self).
Proof.
  destruct (Model_init example_class {[ "mag" := PyNum 9; "mechanism" := PyStr "XX" ]})
    as [log [self|e]] eqn:Hrun.
  - now exists log, self.
  - exfalso. revert Hrun. vm_compute. discriminate.
Qed.

(** A magnitude above the range and an unknown mechanism are stored as
    given; the depth, which is not passed, is stored as its default 7. *)
Lemma Model_init_params_values_witness :
  exists log self,
    Model_init example_class {[ "mag" := PyNum 9; "mechanism" := PyStr "XX" ]}
    = (log, Ok self)
    /\ params self !! "mag" = Some (PyNum 9)
    /\ params self !! "depth_hyp" = Some (PyNum 7)
    /\ params self !! "mechanism" = Some (PyStr "XX").
Proof.
  destruct example_init_ok as (log & self & Hrun). exists log, self.
  pose proof (Model_init_params_values example_class _ log self example_names_distinct Hrun)
    as Hvals.
  split; [exact Hrun|]. split; [|split].
  - apply (Hvals (Numeric (NumericParameter_init "mag" true (Some 3%Q) (Some 8.5%Q) PyNone))).
    apply list_elem_of_here.
  - apply (Hvals (Numeric (NumericParameter_init "depth_hyp" false (Some 0%Q) (Some 20%Q)
                             (PyNum 7)))).
    apply list_elem_of_further, list_elem_of_here.
  - apply (Hvals (Categorical (CategoricalParameter_init "mechanism" false
                                 (Some [PyStr "SS"; PyStr "NM"; PyStr "RS"]) (PyStr "SS")))).
    do 2 apply list_elem_of_further. apply list_elem_of_here.
Defined.

(** X2. A successful construction of a model with distinct declared names
    logs exactly what the checks of its parameters log, parameter by
    parameter in the order of [PARAMS]. *)
Theorem Model_init_log_order (c : ModelClass) (kwds : gmap string pyval) log self :
  NoDup (declared_names c) ->
  Model_init c kwds = (log, Ok self) ->
  log = check_logs (PARAMS c) kwds.
Proof.
  intros Hnd. unfold Model_init.
  destruct (_check_inputs (PARAMS c) (select_params (PARAMS c) kwds))
    as [l [d'|e]] eqn:Hrun; [|discriminate].
  intros [= <- _].
  destruct (check_inputs_run _ _ _ _ Hnd Hrun) as (_ & _ & ->).
  apply check_logs_select.
Qed.

(** The magnitude is reported before the mechanism, as declared. *)
Lemma Model_init_log_order_witness :
  exists log self,
    Model_init example_class {[ "mag" := PyNum 9; "mechanism" := PyStr "XX" ]}
    = (log, Ok self)
    /\ log = [ warning (GreaterThanLimit "mag" (PyNum 9) 8.5);
               warning (NotAnOption "mechanism" (PyStr "XX")
                          [PyStr "SS"; PyStr "NM"; PyStr "RS"]) ].
Proof.
  destruct example_init_ok as (log & self & Hrun). exists log, self.
  split; [exact Hrun|].
  rewrite (Model_init_log_order example_class _ log self example_names_distinct Hrun).
  reflexivity.
Defined.

(** A check that raises has logged nothing. *)
Lemma param_check_raise (p : param) (v : pyval) log e :
  param_check p v = (log, Raise e) -> log = [].
Proof.
  destruct p as [q|q]; cbn.
  - unfold NumericParameter_check.
    destruct v as [|x|s]; cbn.
    + destruct (_required q); cbn; now intros [= <- _].
    + destruct (_min q) as [lo|], (_max q) as [hi|]; cbn;
        repeat case_ltb; try discriminate; apply warn_limit_raise.
    + destruct (_min q) as [lo|], (_max q) as [hi|]; cbn;
        try discriminate; now intros [= <- _].
  - unfold CategoricalParameter_check.
    destruct v as [|x|s]; cbn.
    + destruct (_required q); cbn; now intros [= <- _].
    + destruct (negb _); discriminate.
    + destruct (negb _); discriminate.
Qed.

Lemma check_inputs_raise (ps : list param) (d : gmap string pyval) log e :
  NoDup (map param_name ps) ->
  _check_inputs ps d = (log, Raise e) ->
  exists ps1 p ps2,
    ps = ps1 ++ p :: ps2
    /\ snd (param_check p (dict_get d (param_name p))) = Raise e
    /\ log = check_logs ps1 d
    /\ forall q, q ∈ ps1 ->
         exists v, snd (param_check q (dict_get d (param_name q))) = Ok v.
Proof.
  revert d log. induction ps as [|p0 ps IH]; intros d log Hnd; cbn [_check_inputs].
  - discriminate.
  - destruct (param_check p0 (dict_get d (param_name p0))) as [l [v|e0]] eqn:Hchk.
    + destruct (_check_inputs ps (<[param_name p0 := v]> d)) as [l' r] eqn:Hrest.
      intros [= <- ->].
      pose proof Hnd as [Hnotin Hnd']%NoDup_cons.
      destruct (IH _ _ Hnd' Hrest) as (ps1 & p & ps2 & -> & Hp & -> & Hbefore).
      assert (Hsame : forall q, q ∈ ps1 ++ p :: ps2 ->
                dict_get (<[param_name p0 := v]> d) (param_name q)
                = dict_get d (param_name q)).
      { intros q Hq. apply dict_get_other. intros Heq. apply Hnotin.
        rewrite Heq. now apply list_elem_of_fmap_2. }
      assert (Hin1 : forall q, q ∈ ps1 -> q ∈ ps1 ++ p :: ps2).
      { intros q Hq. apply elem_of_app. now left. }
      assert (Hinp : p ∈ ps1 ++ p :: ps2).
      { apply elem_of_app. right. apply list_elem_of_here. }
      exists (p0 :: ps1), p, ps2. split; [reflexivity|]. split; [|split].
      * now rewrite <- (Hsame p Hinp).
      * unfold check_logs at 2. cbn [flat_map]. rewrite Hchk. cbn [fst]. f_equal.
        apply check_logs_agree. intros q Hq. now apply Hsame, Hin1.
      * intros q [->|Hq]%elem_of_cons.
        -- exists v. now rewrite Hchk.
        -- destruct (Hbefore q Hq) as [w Hw]. exists w.
           now rewrite <- (Hsame q (Hin1 q Hq)).
    + intros [= <- <-]. exists [], p0, ps. split; [reflexivity|].
      split; [now rewrite Hchk|]. split.
      * now apply param_check_raise in Hchk.
      * intros q Hq. now apply elem_of_nil in Hq.
Qed.

(** X3. When the construction of a model with distinct declared names
    raises, it is the check of one declared parameter that raised: the
    checks of the parameters declared before it all returned and their
    records are the whole log, and the parameters declared after it were
    not checked. *)
Theorem Model_init_first_failure (c : ModelClass) (kwds : gmap string pyval) log e :
  NoDup (declared_names c) ->
  Model_init c kwds = (log, Raise e) ->
  exists ps1 p ps2,
    PARAMS c = ps1 ++ p :: ps2
    /\ snd (param_check p (dict_get kwds (param_name p))) = Raise e
    /\ log = check_logs ps1 kwds
    /\ forall q, q ∈ ps1 ->
         exists v, snd (param_check q (dict_get kwds (param_name q))) = Ok v.
Proof.
  intros Hnd. unfold Model_init.
  destruct (_check_inputs (PARAMS c) (select_params (PARAMS c) kwds))
    as [l [d'|e0]] eqn:Hrun; [discriminate|].
  intros [= <- <-].
  destruct (check_inputs_raise _ _ _ _ Hnd Hrun) as (ps1 & p & ps2 & Hsplit & Hp & -> & Hbefore).
  assert (Hget : forall q, q ∈ ps1 ++ p :: ps2 ->
            dict_get (select_params (PARAMS c) kwds) (param_name q)
            = dict_get kwds (param_name q)).
  { intros q Hq. apply select_params_get. now rewrite Hsplit. }
  exists ps1, p, ps2. split; [exact Hsplit|]. split; [|split].
  - rewrite <- Hget; [exact Hp|]. apply elem_of_app. right. apply list_elem_of_here.
  - apply check_logs_agree. intros q Hq. apply Hget, elem_of_app. now left.
  - intros q Hq. destruct (Hbefore q Hq) as [v Hv]. exists v.
    rewrite <- Hget; [exact Hv|]. apply elem_of_app. now left.
Qed.

(** A site velocity below the range is reported, then the missing
    magnitude stops the construction. *)
Lemma Model_init_first_failure_witness :
  exists log,
    Model_init site_class {[ "v_s30" := PyNum 100 ]}
    = (log, Raise (required_error "mag"))
    /\ exists ps1 p ps2,
        PARAMS site_class = ps1 ++ p :: ps2
        /\ snd (param_check p (dict_get {[ "v_s30" := PyNum 100 ]} (param_name p)))
           = Raise (required_error "mag")
        /\ log = check_logs ps1 {[ "v_s30" := PyNum 100 ]}.
Proof.
  assert (Hnd : NoDup (declared_names site_class)).
  { apply (bool_decide_unpack _). vm_compute. exact I. }
  destruct (Model_init site_class {[ "v_s30" := PyNum 100 ]}) as [log r] eqn:Hrun.
  assert (Hr : r = Raise (required_error "mag")).
  { revert Hrun. vm_compute. now intros [= _ <-]. }
  subst r. exists log. split; [reflexivity|].
  destruct (Model_init_first_failure site_class _ log _ Hnd Hrun)
    as (ps1 & p & ps2 & Hsplit & Hp & Hlog & _).
  exists ps1, p, ps2. auto.
Defined.

(** X4. Passing [None] for a keyword is the same as not passing the
    keyword: the log, the outcome and the instance are the same. *)
Theorem Model_init_None_is_absent (c : ModelClass) (kwds : gmap string pyval) (k : string) :
  Model_init c (<[k := PyNone]> kwds) = Model_init c (delete k kwds).
Proof.
  unfold Model_init.
  rewrite (select_params_agree (PARAMS c) (<[k := PyNone]> kwds) (delete k kwds));
    [reflexivity|].
  intros p _. unfold dict_get. rewrite lookup_insert, lookup_delete.
  now case_decide.
Qed.

(** X5. The loop reads each value back from [params]. For a class that
    declares exactly two parameters, which share one name and of which the
    first is optional: when nothing is passed for that name, the log and the
    outcome of the construction are those of checking the second entry
    against the default of the first, not against the missing keyword, and
    the instance stores the one value that this check returns. *)
Theorem shared_name_checks_default (c : ModelClass) (kwds : gmap string pyval)
    (p1 p2 : param) :
  PARAMS c = [p1; p2] ->
  param_name p1 = param_name p2 ->
  _required (param_base p1) = false ->
  absent kwds p1 ->
  Model_init c kwds
  = (fst (param_check p2 (_default (param_base p1))),
     result_map (fun v => {| cls := c; params := {[ param_name p2 := v ]};
                             _ln_resp := None; _ln_std := None |})
                (snd (param_check p2 (_default (param_base p1))))).
Proof.
  intros Hps Hname Hreq Habs. unfold Model_init, select_params. rewrite Hps.
  cbn [foldl _check_inputs]. rewrite <- Hname.
  unfold absent in Habs. rewrite Habs, insert_insert_eq.
  rewrite dict_get_insert, decide_True by reflexivity.
  assert (Hchk1 : param_check p1 PyNone = ([], Ok (_default (param_base p1)))).
  { destruct p1 as [q|q]; cbn in *;
      [unfold NumericParameter_check | unfold CategoricalParameter_check];
      cbn; now rewrite Hreq. }
  rewrite Hchk1. rewrite insert_insert_eq.
  rewrite dict_get_insert, decide_True by reflexivity.
  destruct (param_check p2 (_default (param_base p1))) as [l [v|e]]; cbn.
  - now rewrite insert_insert_eq, insert_empty, app_nil_r.
  - reflexivity.
Qed.

(** A required magnitude declared after an optional one of the same name
    with default 6: nothing is passed, nothing is raised. *)
Lemma shared_name_checks_default_witness :
  let p1 := Numeric (NumericParameter_init "mag" false None None (PyNum 6)) in
  let p2 := Numeric (NumericParameter_init "mag" true (Some 3%Q) (Some 8.5%Q) PyNone) in
  let c := {| PARAMS := [p1; p2]; PERIODS := []; INDICES_PSA := []; INDICES_PSA_dtype := int64;
              INDEX_PGA := None; INDEX_PGV := None; INDEX_PGD := None;
              PGV_SCALE := 1%R; PGD_SCALE := 1%R |} in
  Model_init c ∅
  = ([], Ok {| cls := c; params := {[ "mag" := PyNum 6 ]};
               _ln_resp := None; _ln_std := None |}).
Proof.
  intros p1 p2 c.
  rewrite (shared_name_checks_default c ∅ p1 p2); reflexivity.
Defined.

(** X6. A categorical parameter constructed without options, or with an
    empty list of options, accepts no value: every present value is
    returned unchanged and reported once, at the level that [required]
    selects. *)
Theorem categorical_without_options (name : string) (required : bool)
    (default value : pyval) (options : option (list pyval)) :
  value <> PyNone ->
  options = None \/ options = Some [] ->
  CategoricalParameter_check (CategoricalParameter_init name required options default) value
  = ([{| levelno := if required then ERROR else WARNING;
         msg := NotAnOption name value [] |}], Ok value).
Proof.
  intros Hpresent Hopts.
  rewrite categorical_check_not_option; [|exact Hpresent|].
  - destruct Hopts as [-> | ->]; reflexivity.
  - destruct Hopts as [-> | ->]; reflexivity.
Qed.

Lemma categorical_without_options_witness :
  CategoricalParameter_check (CategoricalParameter_init "region" false None (PyStr ""))
                             (PyStr "japan")
  = ([warning (NotAnOption "region" (PyStr "japan") [])], Ok (PyStr "japan")).
Proof.
  apply (categorical_without_options "region" false (PyStr "") (PyStr "japan") None).
  - discriminate.
  - now left.
Defined.

(** * Further properties of the accessors *)

Lemma Model_init_instance (c : ModelClass) (kwds : gmap string pyval) log self :
  Model_init c kwds = (log, Ok self) ->
  cls self = c /\ _ln_resp self = None /\ _ln_std self = None.
Proof.
  unfold Model_init.
  destruct (_check_inputs (PARAMS c) (select_params (PARAMS c) kwds)) as [l [d|e]];
    [|discriminate].
  now intros [= _ <-].
Qed.

(** X7. The constructor computes nothing: on the instance it returns, the
    array accessors and the interpolation raise a [TypeError] (the arrays
    are still [None]), and so does a scalar accessor whose index is set; a
    scalar accessor whose index is [None] returns the class
    [NotImplementedError] without looking at the arrays. *)
Theorem accessors_before_computation (c : ModelClass) (kwds : gmap string pyval) log self :
  Model_init c kwds = (log, Ok self) ->
  spec_accels self = Raise TypeError
  /\ ln_stds self = Raise TypeError
  /\ (forall query ps, periods self = Ok ps ->
        interp_spec_accels self query = Raise TypeError
        /\ interp_ln_stds self query = Raise TypeError)
  /\ (forall i, INDEX_PGA c = Some i ->
        pga self = Raise TypeError /\ ln_std_pga self = Raise TypeError)
  /\ (forall i, INDEX_PGV c = Some i ->
        pgv self = Raise TypeError /\ ln_std_pgv self = Raise TypeError)
  /\ (forall i, INDEX_PGD c = Some i ->
        pgd self = Raise TypeError /\ ln_std_pgd self = Raise TypeError)
  /\ (INDEX_PGA c = None -> pga self = Ok NotImplementedError).
Proof.
  intros Hinit. destruct (Model_init_instance _ _ _ _ Hinit) as (Hcls & Hresp & Hstd).
  unfold spec_accels, _resp_array, ln_stds, interp_spec_accels, interp_ln_stds,
    pga, pgv, pgd, ln_std_pga, ln_std_pgv, ln_std_pgd, _resp.
  rewrite Hcls, Hresp, Hstd.
  split; [reflexivity|]. split; [reflexivity|].
  split; [intros query ps ->; now split|].
  split; [intros i ->; now split|].
  split; [intros i ->; now split|].
  split; [intros i ->; now split|].
  now intros ->.
Qed.

(** The example class straight after construction. *)
Lemma accessors_before_computation_witness :
  exists log self,
    Model_init example_class {[ "mag" := PyNum 6 ]} = (log, Ok self)
    /\ spec_accels self = Raise TypeError
    /\ pgv self = Raise TypeError
    /\ pga self = Ok NotImplementedError.
Proof.
  destruct (Model_init example_class {[ "mag" := PyNum 6 ]}) as [log [self|e]] eqn:Hrun.
  - exists log, self.
    destruct (accessors_before_computation example_class _ log self Hrun)
      as (Hsa & _ & _ & _ & Hpgv & _ & Hpga).
    split; [reflexivity|]. split; [exact Hsa|]. split.
    + now apply (Hpgv 3%Z).
    + now apply Hpga.
  - exfalso. revert Hrun. vm_compute. discriminate.
Defined.




(** ** Indexing *)

Lemma getitem_spec {A} (a : list A) (i : Z) (d : A) :
  (index_ok (length a) i -> getitem a i = Ok (nth (position (length a) i) a d))
  /\ (~ index_ok (length a) i -> getitem a i = Raise IndexError).
Proof.
  unfold getitem, index_ok, position.
  set (n := Z.of_nat (length a)).
  set (j := if (i <? 0)%Z then (i + n)%Z else i).
  assert (Hj : (0 <= j < n)%Z <-> (- n <= i < n)%Z).
  { unfold j. destruct (Z.ltb_spec i 0); lia. }
  split; intros Hi.
  - apply Hj in Hi.
    replace ((0 <=? j)%Z && (j <? n)%Z)%bool with true
      by (symmetry; apply andb_true_iff; split; [apply Z.leb_le|apply Z.ltb_lt]; lia).
    destruct (a !! Z.to_nat j) as [x|] eqn:Hx.
    + f_equal. symmetry. apply nth_lookup_Some with (d := d) in Hx. exact Hx.
    + apply lookup_ge_None in Hx. unfold n in Hi. lia.
  - destruct ((0 <=? j)%Z && (j <? n)%Z)%bool eqn:Hb; [|reflexivity].
    apply andb_true_iff in Hb as [H1%Z.leb_le H2%Z.ltb_lt]. exfalso. apply Hi, Hj. lia.
Qed.

Lemma take_indices_spec {A} (a : list A) (indices : list Z) (d : A) :
  (Forall (index_ok (length a)) indices ->
   take_indices a indices = Ok (map (fun i => nth (position (length a) i) a d) indices))
  /\ (~ Forall (index_ok (length a)) indices ->
      take_indices a indices = Raise IndexError).
Proof.
  induction indices as [|i rest [IHok IHbad]]; cbn.
  - split; [reflexivity|]. intros H. destruct H. constructor.
  - destruct (getitem_spec a i d) as [Hok Hbad]. split.
    + intros [Hi Hrest]%Forall_cons. now rewrite (Hok Hi), (IHok Hrest).
    + intros Hn.
      destruct (decide (index_ok (length a) i)) as [Hi|Hi].
      * rewrite (Hok Hi). cbn. rewrite IHbad; [reflexivity|].
        intros Hrest. apply Hn. now constructor.
      * now rewrite (Hbad Hi).
Qed.

Lemma take_indices_inv {A} (a : list A) (indices : list Z) (xs : list A) (d : A) :
  take_indices a indices = Ok xs ->
  Forall (index_ok (length a)) indices
  /\ xs = map (fun i => nth (position (length a) i) a d) indices.
Proof.
  intros Hrun. destruct (take_indices_spec a indices d) as [Hok Hbad].
  destruct (decide (Forall (index_ok (length a)) indices)) as [Hall|Hn].
  - split; [exact Hall|]. rewrite (Hok Hall) in Hrun. now injection Hrun.
  - rewrite (Hbad Hn) in Hrun. discriminate.
Qed.

(** X9. [periods] selects the entries of [PERIODS] at the indices
    [INDICES_PSA], in the order of the indices, a negative index counting
    from the end; it raises an [IndexError] exactly when [INDICES_PSA] is not
    an array of integers or some index is outside [PERIODS]. The class
    [Model] itself declares an empty array of floats, so its [periods]
    raises. *)
Theorem periods_indexing (self : Model) :
  let table := PERIODS (cls self) in
  let indices := INDICES_PSA (cls self) in
  (INDICES_PSA_dtype (cls self) = int64 ->
   Forall (index_ok (length table)) indices ->
   periods self = Ok (map (fun i => nth (position (length table) i) table 0%R) indices))
  /\ (INDICES_PSA_dtype (cls self) = float64
      \/ ~ Forall (index_ok (length table)) indices ->
      periods self = Raise IndexError)
  /\ (cls self = Model_defaults -> periods self = Raise IndexError).
Proof.
  intros table indices. unfold periods, fancy_index.
  destruct (take_indices_spec table indices 0%R) as [Hok Hbad].
  split; [|split].
  - intros -> Hall. now apply Hok.
  - intros [-> | Hn]; [reflexivity|].
    destruct (INDICES_PSA_dtype (cls self)); [now apply Hbad|reflexivity].
  - intros Hcls. unfold table, indices in *. now rewrite Hcls.
Qed.

(** X10. [periods], [spec_accels] and [ln_stds] are aligned: when all
    three return, each has one entry per index of [INDICES_PSA], and the
    [k]-th entries are the period, the exponential of the log response and
    the log standard deviation of the same slot, the one that the [k]-th
    index designates. *)
Theorem arrays_are_aligned (self : Model) (resp std ps sa sd : list R) :
  _ln_resp self = Some resp ->
  _ln_std self = Some std ->
  periods self = Ok ps ->
  spec_accels self = Ok sa ->
  ln_stds self = Ok sd ->
  length ps = length (INDICES_PSA (cls self))
  /\ length sa = length ps
  /\ length sd = length ps
  /\ forall k i, INDICES_PSA (cls self) !! k = Some i ->
       ps !! k = Some (nth (position (length (PERIODS (cls self))) i) (PERIODS (cls self)) 0%R)
       /\ sa !! k = Some (exp (nth (position (length resp) i) resp 0%R))
       /\ sd !! k = Some (nth (position (length std) i) std 0%R).
Proof.
  intros Hresp Hstd Hper Hsa Hsd.
  apply periods_inv in Hper as [Hdt Hper].
  unfold spec_accels, _resp_array in Hsa. unfold ln_stds in Hsd.
  rewrite Hresp in Hsa. rewrite Hstd in Hsd. cbn [subscript] in Hsa, Hsd.
  rewrite (at_indices_psa_int self resp Hdt) in Hsa.
  rewrite (at_indices_psa_int self std Hdt) in Hsd.
  destruct (take_indices resp (INDICES_PSA (cls self))) as [xs|e] eqn:Hxs; [|discriminate].
  cbn in Hsa. injection Hsa as <-.
  destruct (take_indices_inv _ _ _ 0%R Hper) as [_ ->].
  destruct (take_indices_inv _ _ _ 0%R Hxs) as [_ ->].
  destruct (take_indices_inv _ _ _ 0%R Hsd) as [_ ->].
  rewrite !length_map. split; [reflexivity|]. split; [reflexivity|].
  split; [reflexivity|]. intros k i Hk. rewrite map_map.
  change (map ?f ?l) with (f <$> l). rewrite !list_lookup_fmap, Hk. now cbn.
Qed.

(** The example model: three periods, with PGV kept in a fourth slot. *)
Lemma arrays_are_aligned_witness :
  exists ps sa sd,
    periods example_model = Ok ps
    /\ spec_accels example_model = Ok sa
    /\ ln_stds example_model = Ok sd
    /\ length sa = length ps
    /\ length sd = length ps
    /\ ps !! 1%nat = Some 1%R
    /\ sa !! 1%nat = Some (exp 0.5)
    /\ sd !! 1%nat = Some 0.65%R.
Proof.
  exists [0.1; 1; 2]%R, [exp 1; exp 0.5; exp 0.25], [0.6; 0.65; 0.7]%R.
  destruct (arrays_are_aligned example_model
              [1; 0.5; 0.25; 0]%R [0.6; 0.65; 0.7; 0.5]%R
              [0.1; 1; 2]%R [exp 1; exp 0.5; exp 0.25] [0.6; 0.65; 0.7]%R
              eq_refl eq_refl eq_refl eq_refl eq_refl)
    as (_ & Hsa & Hsd & Hk).
  destruct (Hk 1%nat 1%Z eq_refl) as (Hp1 & Hsa1 & Hsd1).
  split; [reflexivity|]. split; [reflexivity|]. split; [reflexivity|].
  split; [exact Hsa|]. split; [exact Hsd|].
  split; [exact Hp1|]. split; [exact Hsa1|exact Hsd1].
Defined.

(** ** Interpolation on an increasing grid *)


(** X11. For a model whose supported periods are positive, strictly
    increasing and at least one, interpolating the standard deviations at
    exactly these periods gives [ln_stds] (and raises what [ln_stds] raises
    when an index is outside [_ln_std]). *)
Theorem interp_ln_stds_native (self : Model) (std ps : list R) :
  _ln_std self = Some std ->
  periods self = Ok ps ->
  ps <> [] ->
  Forall (Rlt 0) ps ->
  Sorted Rlt ps ->
  interp_ln_stds self ps = ln_stds self.
Proof.
  intros Hstd Hper Hne Hpos Hsorted.
  apply Sorted_StronglySorted in Hsorted; [|intros a b c; apply Rlt_trans].
  destruct (periods_inv self ps Hper) as [Hdt Hps].
  unfold interp_ln_stds, ln_stds. rewrite Hper, Hstd. cbn [bind subscript].
  rewrite (at_indices_psa_int self std Hdt).
  destruct (take_indices std (INDICES_PSA (cls self))) as [fp|e] eqn:Hfp; [|reflexivity].
  cbn [bind]. apply np_interp_samples.
  - destruct ps; [now destruct Hne|discriminate].
  - now apply sorted_map_ln.
  - rewrite length_map, (take_indices_length _ _ _ Hfp).
    symmetry. apply (take_indices_length _ _ _ Hps).
Qed.

Lemma interp_ln_stds_native_witness :
  interp_ln_stds example_model [0.1; 1; 2]%R = ln_stds example_model.
Proof.
  apply (interp_ln_stds_native example_model [0.6; 0.65; 0.7; 0.5]%R [0.1; 1; 2]%R).
  - reflexivity.
  - reflexivity.
  - discriminate.
  - repeat constructor; lra.
  - repeat constructor; lra.
Defined.


(** X12. A model with a single supported period has a flat spectrum:
    whatever the query periods, each interpolated spectral acceleration is
    the one tabulated value. *)
Theorem interp_single_period (self : Model) (p a : R) (query : list R) :
  periods self = Ok [p] ->
  spec_accels self = Ok [a] ->
  interp_spec_accels self query = Ok (map (fun _ => a) query).
Proof.
  intros Hper Hsa. unfold interp_spec_accels. rewrite Hper. cbn [bind].
  unfold spec_accels, _resp_array in Hsa.
  destruct (subscript _ _) as [fp|e]; [|discriminate]. cbn in Hsa.
  destruct fp as [|f0 [|f1 fp]]; try discriminate. injection Hsa as <-.
  cbn [bind map]. rewrite np_interp_ok; [|discriminate|reflexivity|left; cbn; lia].
  cbn [bind]. f_equal. rewrite !map_map. apply map_ext. intros q.
  now rewrite interp_at_single.
Qed.

Lemma interp_single_period_witness :
  let c := {| PARAMS := []; PERIODS := [0; 1]%R; INDICES_PSA := [1]%Z; INDICES_PSA_dtype := int64;
              INDEX_PGA := Some 0%Z; INDEX_PGV := None; INDEX_PGD := None;
              PGV_SCALE := 1%R; PGD_SCALE := 1%R |} in
  let self := {| cls := c; params := ∅; _ln_resp := Some [0.3; 0.2]%R;
                 _ln_std := Some [0.6; 0.7]%R |} in
  interp_spec_accels self [0.5; 1; 3]%R = Ok [exp 0.2; exp 0.2; exp 0.2].
Proof.
  intros c self.
  apply (interp_single_period self 1%R (exp 0.2) [0.5; 1; 3]%R); reflexivity.
Defined.


(** With a grid and the tabulated accelerations at hand, the interpolation
    is the exponential of [interp_at] on the logarithms. *)
Lemma interp_spec_accels_at (self : Model) (ps sa : list R) :
  periods self = Ok ps ->
  spec_accels self = Ok sa ->
  ps <> [] ->
  Forall (Rlt 0) ps ->
  StronglySorted Rlt ps ->
  exists fp,
    sa = map exp fp /\ length fp = length ps
    /\ forall query,
         interp_spec_accels self query
         = Ok (map (fun q => exp (interp_at (map ln ps) fp (ln q))) query).
Proof.
  intros Hper Hsa Hne Hpos Hs. unfold spec_accels, _resp_array in Hsa.
  destruct (periods_inv self ps Hper) as [Hdt Hps].
  unfold interp_spec_accels. rewrite Hper. cbn [bind].
  destruct (_ln_resp self) as [resp|]; [|discriminate]. cbn [subscript] in *.
  rewrite (at_indices_psa_int self resp Hdt) in *.
  destruct (take_indices resp (INDICES_PSA (cls self))) as [fp|e] eqn:Hfp; [|discriminate].
  cbn in Hsa. injection Hsa as <-. exists fp.
  assert (Hlen : length fp = length ps).
  { rewrite (take_indices_length _ _ _ Hfp). symmetry.
    apply (take_indices_length _ _ _ Hps). }
  split; [reflexivity|]. split; [exact Hlen|]. intros query. cbn [bind].
  rewrite np_interp_ok.
  - cbn. now rewrite !map_map.
  - destruct ps; [now destruct Hne|discriminate].
  - now rewrite length_map.
  - right. now apply sorted_map_ln.
Qed.

Lemma nth_map_in {A} (f : A -> R) (l : list A) (k : nat) (d : A) :
  (k < length l)%nat -> nth k (map f l) 0%R = f (nth k l d).
Proof.
  intros Hk. rewrite (nth_indep _ 0%R (f d)) by now rewrite length_map.
  apply map_nth.
Qed.

(** X13. Outside the supported range the interpolation does not
    extrapolate. On a grid of positive, strictly increasing periods, a query
    beyond the longest period gets the spectral acceleration tabulated at
    the longest period, and a positive query below the shortest period gets
    the one tabulated at the shortest. *)
Theorem interp_clamps_outside (self : Model) (ps sa : list R) (q : R) :
  periods self = Ok ps ->
  spec_accels self = Ok sa ->
  ps <> [] ->
  Forall (Rlt 0) ps ->
  Sorted Rlt ps ->
  ((nth (length ps - 1) ps 0 < q)%R ->
   interp_spec_accels self [q] = Ok [nth (length sa - 1) sa 0%R])
  /\ ((0 < q < nth O ps 0)%R ->
      interp_spec_accels self [q] = Ok [nth O sa 0%R]).
Proof.
  intros Hper Hsa Hne Hpos Hsorted.
  apply Sorted_StronglySorted in Hsorted; [|intros a b c; apply Rlt_trans].
  destruct (interp_spec_accels_at self ps sa Hper Hsa Hne Hpos Hsorted)
    as (fp & -> & Hlen & Hq).
  rewrite Hq. cbn [map].
  assert (Hn : (0 < length ps)%nat) by (destruct ps; [now destruct Hne|cbn; lia]).
  assert (Hlast_pos : (0 < nth (length ps - 1) ps 0)%R).
  { rewrite List.Forall_forall in Hpos. apply Hpos, nth_In. lia. }
  assert (Hfirst_pos : (0 < nth O ps 0)%R).
  { rewrite List.Forall_forall in Hpos. apply Hpos, nth_In. lia. }
  rewrite !length_map.
  rewrite (nth_map_in exp fp (length fp - 1) 0%R) by lia.
  rewrite (nth_map_in exp fp O 0%R) by lia.
  unfold interp_at. rewrite length_map.
  rewrite (nth_map_in ln ps (length ps - 1) 0%R) by lia.
  rewrite (nth_map_in ln ps O 0%R) by lia.
  split.
  - intros Hbeyond.
    destruct (Rlt_dec (ln (nth (length ps - 1) ps 0%R)) (ln q)) as [_|Hn'].
    + reflexivity.
    + exfalso. apply Hn'. now apply ln_increasing.
  - intros [Hqpos Hbelow].
    assert (Hle : (nth O ps 0 <= nth (length ps - 1) ps 0)%R).
    { apply nth_ge_first; [exact Hsorted|lia]. }
    destruct (Rlt_dec (ln (nth (length ps - 1) ps 0%R)) (ln q)) as [Hlt|_].
    + exfalso. pose proof (ln_increasing q (nth (length ps - 1) ps 0%R) Hqpos ltac:(lra)). lra.
    + destruct (Rlt_dec (ln q) (ln (nth O ps 0%R))) as [_|Hn'].
      * reflexivity.
      * exfalso. apply Hn'. now apply ln_increasing.
Qed.

(** Beyond 2 s the example model returns the value tabulated at 2 s, below
    0.1 s the value tabulated at 0.1 s. *)
Lemma interp_clamps_outside_witness :
  interp_spec_accels example_model [5%R] = Ok [exp 0.25]
  /\ interp_spec_accels example_model [0.01%R] = Ok [exp 1].
Proof.
  assert (Hpos : Forall (Rlt 0) [0.1; 1; 2]%R) by (repeat constructor; lra).
  assert (Hsorted : Sorted Rlt [0.1; 1; 2]%R) by (repeat constructor; lra).
  split.
  - apply (interp_clamps_outside example_model [0.1; 1; 2]%R [exp 1; exp 0.5; exp 0.25] 5%R
             eq_refl eq_refl ltac:(discriminate) Hpos Hsorted).
    cbn. lra.
  - apply (interp_clamps_outside example_model [0.1; 1; 2]%R [exp 1; exp 0.5; exp 0.25] 0.01%R
             eq_refl eq_refl ltac:(discriminate) Hpos Hsorted).
    cbn. lra.
Defined.

(** Between two neighbouring sample points of an increasing grid, the
    interpolant stays between the two tabulated values. *)
Lemma interp_at_between (xp fp : list R) (j : nat) (x : R) :
  StronglySorted Rlt xp -> length fp = length xp -> (S j < length xp)%nat ->
  (nth j xp 0 <= x <= nth (S j) xp 0)%R ->
  (Rmin (nth j fp 0) (nth (S j) fp 0) <= interp_at xp fp x
   <= Rmax (nth j fp 0) (nth (S j) fp 0))%R.
Proof.
  intros Hs Hlen Hj [Hlo Hhi].
  pose proof (Rmin_l (nth j fp 0%R) (nth (S j) fp 0%R)) as Hminl.
  pose proof (Rmin_r (nth j fp 0%R) (nth (S j) fp 0%R)) as Hminr.
  pose proof (Rmax_l (nth j fp 0%R) (nth (S j) fp 0%R)) as Hmaxl.
  pose proof (Rmax_r (nth j fp 0%R) (nth (S j) fp 0%R)) as Hmaxr.
  destruct (Req_dec_T x (nth j xp 0%R)) as [->|Hnej].
  { rewrite interp_at_sample; [lra|exact Hs|exact Hlen|lia]. }
  destruct (Req_dec_T x (nth (S j) xp 0%R)) as [->|Hnes].
  { rewrite interp_at_sample; [lra|exact Hs|exact Hlen|lia]. }
  assert (Hgap : (nth j xp 0 < nth (S j) xp 0)%R) by (apply sorted_nth_lt; [exact Hs|lia|lia]).
  unfold interp_at.
  destruct (Rlt_dec (nth (length xp - 1) xp 0%R) x) as [Hlt|_].
  { pose proof (nth_le_last xp (S j) Hs Hj). lra. }
  destruct (Rlt_dec x (nth O xp 0%R)) as [Hlt|_].
  { pose proof (nth_ge_first xp j Hs ltac:(lia)). lra. }
  assert (Hscan : linear_search x xp = j).
  { unfold linear_search. destruct xp as [|a xp]; [cbn in Hj; lia|]. cbn [tl].
    apply (scan_interval xp a x j); [exact Hs|cbn in Hj; lia|exact Hlo|]. intros _. lra. }
  rewrite Hscan.
  destruct (Nat.eqb_spec j (length xp - 1)) as [Heq|_]; [lia|].
  destruct (Req_dec_T (nth j xp 0%R) x) as [Heq|_]; [now destruct Hnej|].
  set (f0 := nth j fp 0%R) in *. set (f1 := nth (S j) fp 0%R) in *.
  set (x0 := nth j xp 0%R) in *. set (x1 := nth (S j) xp 0%R) in *.
  set (t := ((x - x0) / (x1 - x0))%R).
  assert (Ht : (0 <= t <= 1)%R).
  { unfold t. split.
    - apply Rmult_le_pos; [lra|]. left. apply Rinv_0_lt_compat. lra.
    - apply (Rmult_le_reg_r (x1 - x0)); [lra|]. unfold Rdiv.
      rewrite Rmult_assoc, Rinv_l by lra. lra. }
  replace ((f1 - f0) / (x1 - x0) * (x - x0) + f0)%R with (f0 + t * (f1 - f0))%R
    by (unfold t; field; lra).
  destruct (Rle_dec f0 f1) as [Hle|Hgt]; split; nra.
Qed.

Lemma exp_monotone (a b : R) : (a <= b)%R -> (exp a <= exp b)%R.
Proof. intros [Hlt| ->]; [left; now apply exp_increasing|lra]. Qed.

Lemma exp_between (a b v : R) :
  (Rmin a b <= v <= Rmax a b)%R ->
  (Rmin (exp a) (exp b) <= exp v <= Rmax (exp a) (exp b))%R.
Proof.
  destruct (Rle_dec a b) as [Hab|Hab].
  - pose proof (exp_monotone a b Hab) as He.
    rewrite (Rmin_left a b Hab), (Rmax_right a b Hab).
    rewrite (Rmin_left _ _ He), (Rmax_right _ _ He).
    intros [Hlo Hhi]. split; now apply exp_monotone.
  - assert (Hba : (b <= a)%R) by lra.
    pose proof (exp_monotone b a Hba) as He.
    rewrite (Rmin_right a b Hba), (Rmax_left a b Hba).
    rewrite (Rmin_right _ _ He), (Rmax_left _ _ He).
    intros [Hlo Hhi]. split; now apply exp_monotone.
Qed.

(** X14. The interpolation does not overshoot. On a grid of positive,
    strictly increasing periods, a query between two neighbouring periods
    gets a spectral acceleration between the two accelerations tabulated at
    these periods. *)
Theorem interp_between_neighbours (self : Model) (ps sa : list R) (j : nat) (q : R) :
  periods self = Ok ps ->
  spec_accels self = Ok sa ->
  Forall (Rlt 0) ps ->
  Sorted Rlt ps ->
  (S j < length ps)%nat ->
  (nth j ps 0 <= q <= nth (S j) ps 0)%R ->
  exists y,
    interp_spec_accels self [q] = Ok [y]
    /\ (Rmin (nth j sa 0) (nth (S j) sa 0) <= y <= Rmax (nth j sa 0) (nth (S j) sa 0))%R.
Proof.
  intros Hper Hsa Hpos Hsorted Hj [Hlo Hhi].
  apply Sorted_StronglySorted in Hsorted; [|intros a b c; apply Rlt_trans].
  assert (Hne : ps <> []) by (destruct ps; [cbn in Hj; lia|discriminate]).
  destruct (interp_spec_accels_at self ps sa Hper Hsa Hne Hpos Hsorted)
    as (fp & -> & Hlen & Hq).
  rewrite Hq. cbn [map]. eexists. split; [reflexivity|].
  rewrite (nth_map_in exp fp j 0%R), (nth_map_in exp fp (S j) 0%R) by lia.
  apply exp_between, interp_at_between.
  - now apply sorted_map_ln.
  - now rewrite length_map.
  - now rewrite length_map.
  - assert (Hpj : (0 < nth j ps 0)%R).
    { rewrite List.Forall_forall in Hpos. apply Hpos, nth_In. lia. }
    rewrite (nth_map_in ln ps j 0%R), (nth_map_in ln ps (S j) 0%R) by lia.
    split.
    + destruct Hlo as [Hlt| ->]; [left; now apply ln_increasing|lra].
    + destruct Hhi as [Hlt| ->]; [left; apply ln_increasing; lra|lra].
Qed.

(** At 1.5 s the example model answers between the values tabulated at
    1 s and 2 s. *)
Lemma interp_between_neighbours_witness :
  exists y,
    interp_spec_accels example_model [1.5%R] = Ok [y]
    /\ (Rmin (exp 0.5) (exp 0.25) <= y <= Rmax (exp 0.5) (exp 0.25))%R.
Proof.
  assert (Hpos : Forall (Rlt 0) [0.1; 1; 2]%R) by (repeat constructor; lra).
  assert (Hsorted : Sorted Rlt [0.1; 1; 2]%R) by (repeat constructor; lra).
  apply (interp_between_neighbours example_model [0.1; 1; 2]%R [exp 1; exp 0.5; exp 0.25]
           1%nat 1.5%R eq_refl eq_refl Hpos Hsorted).
  - cbn. lia.
  - cbn. lra.
Defined.

Lemma interp_ln_stds_at (self : Model) (ps sd : list R) :
  periods self = Ok ps ->
  ln_stds self = Ok sd ->
  ps <> [] ->
  Forall (Rlt 0) ps ->
  StronglySorted Rlt ps ->
  length sd = length ps
  /\ forall query,
       interp_ln_stds self query
       = Ok (map (fun q => interp_at (map ln ps) sd (ln q)) query).
Proof.
  intros Hper Hsd Hne Hpos Hs. unfold ln_stds in Hsd.
  destruct (periods_inv self ps Hper) as [Hdt Hps].
  unfold interp_ln_stds. rewrite Hper. cbn [bind].
  destruct (_ln_std self) as [std|]; [|discriminate]. cbn [subscript] in *.
  rewrite Hsd. cbn [bind].
  rewrite (at_indices_psa_int self std Hdt) in Hsd.
  assert (Hlen : length sd = length ps).
  { rewrite (take_indices_length _ _ _ Hsd). symmetry.
    apply (take_indices_length _ _ _ Hps). }
  split; [exact Hlen|]. intros query.
  rewrite np_interp_ok.
  - now rewrite map_map.
  - destruct ps; [now destruct Hne|discriminate].
  - now rewrite length_map.
  - right. now apply sorted_map_ln.
Qed.

(** X15. The interpolated standard deviation does not overshoot either:
    on a grid of positive, strictly increasing periods, a query between two
    neighbouring periods gets a value between the two standard deviations
    tabulated at these periods. *)
Theorem interp_ln_stds_between (self : Model) (ps sd : list R) (j : nat) (q : R) :
  periods self = Ok ps ->
  ln_stds self = Ok sd ->
  Forall (Rlt 0) ps ->
  Sorted Rlt ps ->
  (S j < length ps)%nat ->
  (nth j ps 0 <= q <= nth (S j) ps 0)%R ->
  exists y,
    interp_ln_stds self [q] = Ok [y]
    /\ (Rmin (nth j sd 0) (nth (S j) sd 0) <= y <= Rmax (nth j sd 0) (nth (S j) sd 0))%R.
Proof.
  intros Hper Hsd Hpos Hsorted Hj [Hlo Hhi].
  apply Sorted_StronglySorted in Hsorted; [|intros a b c; apply Rlt_trans].
  assert (Hne : ps <> []) by (destruct ps; [cbn in Hj; lia|discriminate]).
  destruct (interp_ln_stds_at self ps sd Hper Hsd Hne Hpos Hsorted) as (Hlen & Hq).
  rewrite Hq. cbn [map]. eexists. split; [reflexivity|].
  apply interp_at_between.
  - now apply sorted_map_ln.
  - now rewrite length_map.
  - now rewrite length_map.
  - assert (Hpj : (0 < nth j ps 0)%R).
    { rewrite List.Forall_forall in Hpos. apply Hpos, nth_In. lia. }
    rewrite (nth_map_in ln ps j 0%R), (nth_map_in ln ps (S j) 0%R) by lia.
    split.
    + destruct Hlo as [Hlt| ->]; [left; now apply ln_increasing|lra].
    + destruct Hhi as [Hlt| ->]; [left; apply ln_increasing; lra|lra].
Qed.

Lemma interp_ln_stds_between_witness :
  exists y,
    interp_ln_stds example_model [0.5%R] = Ok [y]
    /\ (Rmin 0.6 0.65 <= y <= Rmax 0.6 0.65)%R.
Proof.
  assert (Hpos : Forall (Rlt 0) [0.1; 1; 2]%R) by (repeat constructor; lra).
  assert (Hsorted : Sorted Rlt [0.1; 1; 2]%R) by (repeat constructor; lra).
  apply (interp_ln_stds_between example_model [0.1; 1; 2]%R [0.6; 0.65; 0.7]%R
           0%nat 0.5%R eq_refl eq_refl Hpos Hsorted).
  - cbn. lia.
  - cbn. lra.
Defined.

(** X16. With [_ln_resp] populated, a scalar accessor whose index is set
    reads the slot that the index designates, a negative index counting from
    the end, and raises an [IndexError] when the index is outside the
    array. *)
Theorem scalar_index_bounds (self : Model) (resp : list R) (i : Z) :
  _ln_resp self = Some resp ->
  let x := nth (position (length resp) i) resp 0%R in
  (INDEX_PGA (cls self) = Some i ->
   (index_ok (length resp) i -> pga self = Ok (ObjFloat (exp x)))
   /\ (~ index_ok (length resp) i -> pga self = Raise IndexError))
  /\ (INDEX_PGV (cls self) = Some i ->
      (index_ok (length resp) i ->
       pgv self = Ok (ObjFloat (exp x * PGV_SCALE (cls self))))
      /\ (~ index_ok (length resp) i -> pgv self = Raise IndexError))
  /\ (INDEX_PGD (cls self) = Some i ->
      (index_ok (length resp) i ->
       pgd self = Ok (ObjFloat (exp x * PGD_SCALE (cls self))))
      /\ (~ index_ok (length resp) i -> pgd self = Raise IndexError)).
Proof.
  intros Hresp x. destruct (getitem_spec resp i 0%R) as [Hok Hbad].
  unfold pga, pgv, pgd, _resp. rewrite Hresp. cbn [subscript].
  split; [|split]; intros ->; split; intros Hi;
    rewrite ?(Hok Hi), ?(Hbad Hi); reflexivity.
Qed.

(** The example model keeps PGV in the last slot; index -1 reads it, index
    4 is outside. *)
Lemma scalar_index_bounds_witness :
  let c := {| PARAMS := []; PERIODS := [0.1; 1; 2]%R; INDICES_PSA := [0; 1; 2]%Z; INDICES_PSA_dtype := int64;
              INDEX_PGA := Some 4%Z; INDEX_PGV := Some (-1)%Z; INDEX_PGD := None;
              PGV_SCALE := 2%R; PGD_SCALE := 1%R |} in
  let self := {| cls := c; params := ∅; _ln_resp := Some [1; 0.5; 0.25; 0]%R;
                 _ln_std := None |} in
  pgv self = Ok (ObjFloat (exp 0 * 2)) /\ pga self = Raise IndexError.
Proof.
  intros c self. split.
  - apply (scalar_index_bounds self [1; 0.5; 0.25; 0]%R (-1)%Z eq_refl); [reflexivity|].
    unfold index_ok. cbn. lia.
  - apply (scalar_index_bounds self [1; 0.5; 0.25; 0]%R 4%Z eq_refl); [reflexivity|].
    unfold index_ok. cbn. lia.
Defined.
